(** * MatchPredictionModal / PlayerDetailsModal: the view logic, verified

    A shallow embedding of the decision logic of
    [src/components/MatchPredictionModal.tsx] (the match prediction modal
    and the player details modal that follows it in the same source file):
    the React state of each component is a record, each event handler is a
    function on that record, each derived value is a pure function.

    Conventions of the embedding.
    - A JavaScript string is the list of its UTF-16 code units ([list N]).
    - A JavaScript number is [NaN], an infinity or the rational it stands
      for.  Comparisons, [Math.max], [Math.abs] and [toFixed] are exact on
      that value, as they are in the language; a subtraction and
      [parseFloat] round their exact result to the nearest binary64
      ([round64]: 53 significant bits, ties to even, gradual underflow,
      overflow to an infinity).  Module [Binary64] evaluates the arithmetic
      of the win probability bars with the float operations of [SpecFloat],
      and [binary64_agrees_on_tenths] shows that both give the same bar
      values for every raw value with one decimal from -50.0 to 150.0.
      The two zeros of binary64 are one value here: the components only
      compare, subtract and print, which does not tell them apart.
    - [x || 0] on a [number | undefined] is [or0]; [undefined] is [None]. *)

From Stdlib Require Import ZArith QArith Qround Qabs Qpower List String Ascii Lia Lqa.
From Stdlib Require Import DecimalString DecimalZ DecimalPos.
From Stdlib Require Import Floats.SpecFloat.
From stdpp Require Import base list gmap.

Local Open Scope Z_scope.

(** ** JavaScript primitives used by the components *)

Module JS.

(** *** Strings: UTF-16 code units *)

Abbreviation jsstring := (list N).

(** An ASCII literal of the source as code units. *)
Definition js (s : String.string) : jsstring :=
  map N_of_ascii (list_ascii_of_string s).

(** [s.startsWith(p)] and [s.includes(sub)]. *)
Fixpoint startsWith (s p : jsstring) : bool :=
  match p, s with
  | [], _ => true
  | _ :: _, [] => false
  | c :: p', d :: s' => (c =? d)%N && startsWith s' p'
  end.

Fixpoint includes (s sub : jsstring) : bool :=
  startsWith s sub ||
  match s with
  | [] => false
  | _ :: s' => includes s' sub
  end.

(** [a === b] on strings. *)
Definition strict_eq (a b : jsstring) : bool := bool_decide (a = b).

(** A string is falsy exactly when it is empty. *)
Definition nonempty (s : jsstring) : bool :=
  match s with [] => false | _ :: _ => true end.

Definition between (lo hi c : N) : bool := ((lo <=? c) && (c <=? hi))%N.

(** [toLowerCase] on strings of Basic Latin and Latin-1 Supplement (U+0000
    to U+00FF), where it is a map on code units: A-Z and U+00C0..U+00DE
    (but the multiplication sign U+00D7) move up by 32.  It is used for the
    labels that are matched against the keywords of the source, all within
    that range; code units above U+00FF are kept as they are, which the
    case mapping of the language does not do.  The roster search, which
    lowers the names of players, takes the case mapping as a parameter
    instead (see [playerSearchResults]). *)
Definition lower_unit (c : N) : N :=
  if between 65 90 c then (c + 32)%N
  else if between 192 222 c && negb (c =? 215)%N then (c + 32)%N
  else c.

Definition toLowerCase (s : jsstring) : jsstring := map lower_unit s.

(** [toUpperCase], exact on the same range: a-z and U+00E0..U+00FE (but the
    division sign U+00F7) move down by 32; sharp s becomes "SS", the micro
    sign becomes U+039C and y with diaeresis becomes U+0178. *)
Definition upper_units (c : N) : list N :=
  if between 97 122 c then [(c - 32)%N]
  else if (c =? 223)%N then [83%N; 83%N]
  else if (c =? 181)%N then [924%N]
  else if (c =? 255)%N then [376%N]
  else if between 224 254 c && negb (c =? 247)%N then [(c - 32)%N]
  else [c].

Definition toUpperCase (s : jsstring) : jsstring := flat_map upper_units s.

(** [Number::toString] of an integer below 10^21 in absolute value:
    decimal digits, with a minus sign when negative. *)
Definition ToString_int (z : Z) : jsstring :=
  js (NilZero.string_of_int (Z.to_int z)).

(** [Array.prototype.join(sep)] on an array of strings. *)
Fixpoint join (sep : jsstring) (l : list jsstring) : jsstring :=
  match l with
  | [] => []
  | [x] => x
  | x :: rest => x ++ sep ++ join sep rest
  end.

(** *** Numbers *)

Inductive number : Type :=
| NaN
| Inf (negative : bool)
| Fin (q : Q).

Definition Qlt_bool (p q : Q) : bool := negb (Qle_bool q p).

(** [a < b], [a <= b], [a > b]: every comparison with [NaN] is false. *)
Definition ltb (a b : number) : bool :=
  match a, b with
  | NaN, _ | _, NaN => false
  | Inf true, Inf true => false
  | Inf true, _ => true
  | _, Inf true => false
  | Inf false, _ => false
  | Fin _, Inf false => true
  | Fin p, Fin q => Qlt_bool p q
  end.

Definition leb (a b : number) : bool :=
  match a, b with
  | NaN, _ | _, NaN => false
  | Inf true, _ => true
  | Fin _, Inf true | Inf false, Inf true => false
  | _, Inf false => true
  | Inf false, Fin _ => false
  | Fin p, Fin q => Qle_bool p q
  end.

Definition gtb (a b : number) : bool := ltb b a.

(** Truthiness of a number: [0] and [NaN] are falsy. *)
Definition truthy (x : number) : bool :=
  match x with
  | NaN => false
  | Inf _ => true
  | Fin q => negb (Qeq_bool q 0)
  end.

Definition zero : number := Fin 0.

(** [x || 0] for [x : number | undefined]. *)
Definition or0 (x : option number) : number :=
  match x with
  | Some n => if truthy n then n else zero
  | None => zero
  end.

(** [ToNumber] of a [number | undefined]. *)
Definition ToNumber (x : option number) : number :=
  match x with
  | Some n => n
  | None => NaN
  end.

(** *** Rounding to binary64

    [roundHalfEven y] is the integer nearest to [y], the even one on a tie.
    [ilog2 a] is the exponent of a positive [a], the [k] with
    [2^k <= a < 2^(k+1)].  The last place of a binary64 near [a] is
    [2^(k-52)], and [2^-1074] for the subnormal numbers and the smallest
    normal ones: [quantum].  [nearest x] is the multiple of that last place
    nearest to [x]; [round64 x] is the binary64 that an operation with the
    exact result [x] returns, an infinity when [nearest x] is out of range.
    A result that needs no rounding is kept as it is written. *)
Definition roundHalfEven (y : Q) : Z :=
  let f := Qfloor y in
  match (y - inject_Z f ?= 1 # 2)%Q with
  | Lt => f
  | Gt => f + 1
  | Eq => if Z.even f then f else f + 1
  end.

Definition ilog2 (a : Q) : Z :=
  let k := Z.log2 (Qnum a) - Z.log2 (Z.pos (Qden a)) in
  if Qle_bool (2 ^ k) a then k else k - 1.

Definition quantum (a : Q) : Z := Z.max (ilog2 a - 52) (-1074).

Definition roundMagnitude (a : Q) : Q :=
  (inject_Z (roundHalfEven (a * 2 ^ (- quantum a))) * 2 ^ quantum a)%Q.

Definition nearest (x : Q) : Q :=
  if Qeq_bool x 0 then 0%Q
  else if Qle_bool x 0 then (- roundMagnitude (- x))%Q
  else roundMagnitude x.

Definition round64 (x : Q) : number :=
  let v := nearest x in
  if Qle_bool (2 ^ 1024) (Qabs v) then Inf (negb (Qle_bool 0 x))
  else if Qeq_bool v x then Fin x else Fin (Qred v).

(** The number a decimal literal, or a decimal of a JSON document, reads
    as. *)
Definition literal (q : Q) : number := round64 q.

(** The rationals that are the value of a finite binary64. *)
Definition isBinary64 (q : Q) : bool :=
  Qeq_bool (nearest q) q && negb (Qle_bool (2 ^ 1024) (Qabs q)).

(** [a - b]: the exact difference, rounded. *)
Definition sub (a b : number) : number :=
  match a, b with
  | NaN, _ | _, NaN => NaN
  | Inf s, Inf t => if Bool.eqb s t then NaN else Inf s
  | Inf s, Fin _ => Inf s
  | Fin _, Inf t => Inf (negb t)
  | Fin p, Fin q => round64 (p - q)%Q
  end.

(** [Math.max(a, b)]: [NaN] when either argument is. *)
Definition Math_max (a b : number) : number :=
  match a, b with
  | NaN, _ | _, NaN => NaN
  | _, _ => if ltb a b then b else a
  end.

(** [x.toFixed(0)]: the integer [n] for which [n - x] is closest to zero,
    the larger one on a tie, computed on [|x|] with the sign put back. *)
Definition toFixed0_int (q : Q) : Z :=
  if Qle_bool 0 q then Qfloor (q + (1 # 2))%Q
  else - Qfloor (- q + (1 # 2))%Q.

(** The string [x.toFixed(0)].  [None] stands for the exponent notation
    that [toFixed] switches to from 10^21 on, which is not modelled. *)
Definition toFixed0 (x : number) : option jsstring :=
  match x with
  | NaN => Some (js "NaN")
  | Inf false => Some (js "Infinity")
  | Inf true => Some (js "-Infinity")
  | Fin q =>
      if Qle_bool (10 ^ 21)%Q (Qabs q) then None
      else Some ((if Qlt_bool q 0 then js "-" else []) ++
                 ToString_int (Z.abs (toFixed0_int q)))
  end.

(** The integer shown by [x.toFixed(0)] for a finite [x]. *)
Definition roundedInt (x : number) : option Z :=
  match x with
  | Fin q => Some (toFixed0_int q)
  | _ => None
  end.

(** [parseFloat(s)]: leading white space is dropped, then the longest
    prefix that is a decimal literal (sign, [Infinity] or digits with an
    optional fraction and exponent) is read, and its value is rounded to
    the nearest binary64 (0 on underflow, an infinity on overflow); [NaN]
    when there is no such prefix. *)
Definition isWhiteSpace (c : N) : bool :=
  between 9 13 c || (c =? 32)%N || (c =? 160)%N || (c =? 5760)%N ||
  between 8192 8202 c || (c =? 8232)%N || (c =? 8233)%N || (c =? 8239)%N ||
  (c =? 8287)%N || (c =? 12288)%N || (c =? 65279)%N.

Fixpoint trimStart (s : jsstring) : jsstring :=
  match s with
  | c :: r => if isWhiteSpace c then trimStart r else s
  | [] => []
  end.

Definition isDigit (c : N) : bool := between 48 57 c.

Fixpoint spanDigits (s : jsstring) : list N * jsstring :=
  match s with
  | c :: r =>
      if isDigit c then let (ds, r') := spanDigits r in ((c - 48)%N :: ds, r')
      else ([], s)
  | [] => ([], [])
  end.

Definition digitsValue (ds : list N) : Z :=
  fold_left (fun acc d => 10 * acc + Z.of_N d) ds 0.

Definition readSign (s : jsstring) : bool * jsstring :=
  match s with
  | c :: r =>
      if (c =? 43)%N then (false, r)
      else if (c =? 45)%N then (true, r)
      else (false, s)
  | [] => (false, s)
  end.

Definition parseExponent (s : jsstring) : Z :=
  match s with
  | c :: r =>
      if (c =? 101)%N || (c =? 69)%N then
        let (neg, r1) := readSign r in
        let (ds, _) := spanDigits r1 in
        match ds with
        | [] => 0
        | _ :: _ => if neg then - digitsValue ds else digitsValue ds
        end
      else 0
  | [] => 0
  end.

Definition parseDecimal (neg : bool) (u : jsstring) : number :=
  let (ip, r1) := spanDigits u in
  let (fp, r2) :=
    match r1 with
    | c :: r => if (c =? 46)%N then spanDigits r else ([], r1)
    | [] => ([], r1)
    end in
  match ip ++ fp with
  | [] => NaN
  | ds =>
      let m := (inject_Z (digitsValue ds) *
                10 ^ (parseExponent r2 - Z.of_nat (length fp)))%Q in
      round64 (if neg then (- m)%Q else m)
  end.

Definition parseFloat (s : jsstring) : number :=
  let (neg, u) := readSign (trimStart s) in
  if startsWith u (js "Infinity") then Inf neg
  else parseDecimal neg u.

(** *** Further primitives of the rendering code *)

(** [Math.abs(x)]. *)
Definition Math_abs (x : number) : number :=
  match x with
  | NaN => NaN
  | Inf _ => Inf false
  | Fin q => Fin (Qabs q)
  end.

(** [a === b] on numbers: [NaN] equals nothing. *)
Definition strict_eq_num (a b : number) : bool :=
  match a, b with
  | Fin p, Fin q => Qeq_bool p q
  | Inf s, Inf t => Bool.eqb s t
  | _, _ => false
  end.

(** [x.toFixed(f)]: the integer [n] for which [n / 10^f - |x|] is closest
    to zero (the larger one on a tie), written in decimal, padded with
    zeros to [f + 1] digits, with a point before the last [f] digits and a
    minus sign when [x < 0].  As for [toFixed0], [None] stands for the
    exponent notation used from 10^21 on. *)
Definition toFixed_int (f : nat) (q : Q) : Z :=
  Qfloor (Qabs q * 10 ^ Z.of_nat f + (1 # 2))%Q.

Definition padStart (width : nat) (m : jsstring) : jsstring :=
  repeat 48%N (width - length m) ++ m.

Definition pointBefore (f : nat) (m : jsstring) : jsstring :=
  match f with
  | O => m
  | S _ =>
      let m' := padStart (S f) m in
      firstn (length m' - f) m' ++ js "." ++ skipn (length m' - f) m'
  end.

Definition toFixed (f : nat) (x : number) : option jsstring :=
  match x with
  | NaN => Some (js "NaN")
  | Inf false => Some (js "Infinity")
  | Inf true => Some (js "-Infinity")
  | Fin q =>
      if Qle_bool (10 ^ 21)%Q (Qabs q) then None
      else Some ((if Qlt_bool q 0 then js "-" else []) ++
                 pointBefore f (ToString_int (toFixed_int f q)))
  end.

(** What the digits of [toFixed] are made of: neither a sign nor anything
    but decimal digits and the point. *)
Definition unsignedChar (c : N) : Prop := between 48 57 c = true \/ c = 46%N.

(** [s.split(sep)] for a separator of one code unit. *)
Fixpoint split (sep : N) (s : jsstring) : list jsstring :=
  match s with
  | [] => [[]]
  | c :: r =>
      if (c =? sep)%N then [] :: split sep r
      else
        match split sep r with
        | x :: xs => (c :: x) :: xs
        | [] => [[c]]
        end
  end.

(** [n[0]] followed by the [join("")] of the results: a missing first
    unit ([undefined]) joins as the empty string. *)
Definition firstUnit (n : jsstring) : jsstring :=
  match n with
  | c :: _ => [c]
  | [] => []
  end.

End JS.

(** ** The value of a number input

    The target line is typed into an [<input type="number">] (lines
    1351-1358), and the component reads [e.target.value]: the text in the
    field when it is a valid floating-point number of HTML (an optional
    "-", digits with an optional fraction or a fraction alone, an optional
    exponent), and the empty string for any other text.  An engine may
    refuse more than that (a number out of range) and hand over the empty
    string for it too: whatever it hands over is the empty string or a
    valid floating-point number, which [numberInputValue] leaves as it
    is. *)

Module DOM.
Import JS.

Definition validExponent (s : jsstring) : bool :=
  match s with
  | [] => true
  | c :: r =>
      ((c =? 101)%N || (c =? 69)%N) &&
      let r1 := match r with
                | d :: r' => if (d =? 43)%N || (d =? 45)%N then r' else r
                | [] => r
                end in
      let (ds, rest) := spanDigits r1 in
      nonempty ds && negb (nonempty rest)
  end.

Definition validUnsigned (u : jsstring) : bool :=
  let (ip, r1) := spanDigits u in
  match r1 with
  | c :: r =>
      if (c =? 46)%N then
        let (fp, r2) := spanDigits r in nonempty fp && validExponent r2
      else nonempty ip && validExponent r1
  | [] => nonempty ip
  end.

Definition validFloatingPointNumber (s : jsstring) : bool :=
  match s with
  | c :: r => if (c =? 45)%N then validUnsigned r else validUnsigned s
  | [] => false
  end.

Definition numberInputValue (typed : jsstring) : jsstring :=
  if validFloatingPointNumber typed then typed else [].

End DOM.

(** ** IEEE binary64, for cross-checking the rounding

    The numbers of the running program are binary64 floats.  This module
    evaluates the arithmetic of the win probability bars on them, with the
    correctly rounded operations of [SpecFloat] (precision 53, maximal
    exponent 1024), so that [round64] can be compared with them on
    concrete inputs. *)

Module Binary64.

Definition of_Z (z : Z) : spec_float := binary_normalize 53 1024 z 0 false.

Definition div : spec_float -> spec_float -> spec_float := SFdiv 53 1024.

Definition sub : spec_float -> spec_float -> spec_float := SFsub 53 1024.

(** [Math.max(0, x)] for an [x] that is not [NaN]. *)
Definition max0 (x : spec_float) : spec_float :=
  if SFltb (of_Z 0) x then x else of_Z 0.

(** The rational a finite float stands for. *)
Definition value (f : spec_float) : option Q :=
  match f with
  | S754_zero _ => Some 0%Q
  | S754_finite s m e =>
      Some (inject_Z (if s then Z.neg m else Z.pos m) * 2 ^ e)%Q
  | _ => None
  end.

(** [toFixed(0)] rounds the exact value of the float. *)
Definition toFixed0_int (f : spec_float) : option Z :=
  option_map JS.toFixed0_int (value f).

(** The float nearest to [k / 10], as the literal [k / 10] reads. *)
Definition tenths (k : Z) : spec_float := div (of_Z k) (of_Z 10).

(** The values of the two bars for the raw value [tenths k], and the
    integers of the two badges. *)
Definition bars (k : Z) : option Q * option Q :=
  (value (max0 (tenths k)), value (max0 (sub (of_Z 100) (tenths k)))).

Definition badges (k : Z) : option Z * option Z :=
  (toFixed0_int (max0 (tenths k)),
   toFixed0_int (max0 (sub (of_Z 100) (tenths k)))).

(** A float as a number of the model. *)
Definition toNumber (f : spec_float) : JS.number :=
  match f with
  | S754_zero _ => JS.Fin 0
  | S754_finite s m e =>
      JS.Fin (inject_Z (if s then Z.neg m else Z.pos m) * 2 ^ e)%Q
  | S754_infinity s => JS.Inf s
  | S754_nan => JS.NaN
  end.

Definition sameNumber (a b : JS.number) : bool :=
  match a, b with
  | JS.Fin p, JS.Fin q => Qeq_bool p q
  | JS.Inf s, JS.Inf t => Bool.eqb s t
  | _, _ => false
  end.

(** A sample of quotients and products [n * 2^e / d] and [n * 2^e * d]
    with [|n| <= 15], from the subnormal numbers to overflow: what the
    float operations return and what [round64] makes of the exact result. *)
Definition roundingSample : list (Z * Z * Z) :=
  n ← [-15; -7; -1; 1; 3; 5; 11; 15];
  e ← [-1074; -1071; -1022; -53; 0; 1020];
  d ← [3; 10];
  [(n, e, d)].

Definition roundingAgreesAt (x : Z * Z * Z) : bool :=
  let '(n, e, d) := x in
  let exact := (inject_Z n * 2 ^ e)%Q in
  sameNumber (toNumber (div (SFldexp 53 1024 (of_Z n) e) (of_Z d)))
             (JS.round64 (exact / inject_Z d)) &&
  sameNumber (toNumber (SFmul 53 1024 (SFldexp 53 1024 (of_Z n) e) (of_Z d)))
             (JS.round64 (exact * inject_Z d)).

End Binary64.

(** ** The match prediction modal *)

Module MatchPredictionModal.
Import JS.

(** A roster member ([Player] of the API service): the fields the
    component reads.  Ids are the integer ids of the API. *)
Record Player : Type := mkPlayer {
  id : Z;
  full_name : jsstring
}.

(** The [useState] cells of the component. *)
Record State : Type := mkState {
  homeMissingPlayers : list Player;
  awayMissingPlayers : list Player;
  homeSearchQuery : jsstring;
  awaySearchQuery : jsstring;
  homePopoverOpen : bool;
  awayPopoverOpen : bool;
  failedLogos : gset jsstring
}.

(** The state on mount. *)
Definition initial : State :=
  mkState [] [] [] [] false false ∅.

(** The setters returned by [useState]. *)
Definition setHomeMissingPlayers (l : list Player) (st : State) : State :=
  mkState l (awayMissingPlayers st) (homeSearchQuery st) (awaySearchQuery st)
          (homePopoverOpen st) (awayPopoverOpen st) (failedLogos st).

Definition setAwayMissingPlayers (l : list Player) (st : State) : State :=
  mkState (homeMissingPlayers st) l (homeSearchQuery st) (awaySearchQuery st)
          (homePopoverOpen st) (awayPopoverOpen st) (failedLogos st).

Definition setHomeSearchQuery (q : jsstring) (st : State) : State :=
  mkState (homeMissingPlayers st) (awayMissingPlayers st) q (awaySearchQuery st)
          (homePopoverOpen st) (awayPopoverOpen st) (failedLogos st).

Definition setAwaySearchQuery (q : jsstring) (st : State) : State :=
  mkState (homeMissingPlayers st) (awayMissingPlayers st) (homeSearchQuery st) q
          (homePopoverOpen st) (awayPopoverOpen st) (failedLogos st).

Definition setHomePopoverOpen (b : bool) (st : State) : State :=
  mkState (homeMissingPlayers st) (awayMissingPlayers st) (homeSearchQuery st)
          (awaySearchQuery st) b (awayPopoverOpen st) (failedLogos st).

Definition setAwayPopoverOpen (b : bool) (st : State) : State :=
  mkState (homeMissingPlayers st) (awayMissingPlayers st) (homeSearchQuery st)
          (awaySearchQuery st) (homePopoverOpen st) b (failedLogos st).

(** [l.find((p) => p.id === player.id)] (lines 120 and 131). *)
Definition findById (l : list Player) (player : Player) : option Player :=
  find (fun p => id p =? id player) l.

(** [l.filter((p) => p.id !== playerId)] (lines 142 and 149). *)
Definition removeMissing (l : list Player) (playerId : Z) : list Player :=
  List.filter (fun p => negb (id p =? playerId)) l.

(** The add and remove handlers (lines 118-152).  An add handler calls the
    list setter only when [find] returns [undefined]; it always clears the
    search text and closes the popover of its side. *)
Definition addHomeMissingPlayer (player : Player) (st : State) : State :=
  let st1 :=
    match findById (homeMissingPlayers st) player with
    | None => setHomeMissingPlayers (homeMissingPlayers st ++ [player]) st
    | Some _ => st
    end in
  setHomePopoverOpen false (setHomeSearchQuery [] st1).

Definition addAwayMissingPlayer (player : Player) (st : State) : State :=
  let st1 :=
    match findById (awayMissingPlayers st) player with
    | None => setAwayMissingPlayers (awayMissingPlayers st ++ [player]) st
    | Some _ => st
    end in
  setAwayPopoverOpen false (setAwaySearchQuery [] st1).

Definition removeHomeMissingPlayer (playerId : Z) (st : State) : State :=
  setHomeMissingPlayers (removeMissing (homeMissingPlayers st) playerId) st.

Definition removeAwayMissingPlayer (playerId : Z) (st : State) : State :=
  setAwayMissingPlayers (removeMissing (awayMissingPlayers st) playerId) st.

Definition setFailedLogos (f : gset jsstring) (st : State) : State :=
  mkState (homeMissingPlayers st) (awayMissingPlayers st) (homeSearchQuery st)
          (awaySearchQuery st) (homePopoverOpen st) (awayPopoverOpen st) f.

(** [handleLogoError] (lines 210-212): [new Set([...prev, teamId])]. *)
Definition handleLogoError (teamId : jsstring) (st : State) : State :=
  setFailedLogos (failedLogos st ∪ {[ teamId ]}) st.

Inductive Side : Type := Home | Away.

(** The events that write the state: adding and removing an absent player,
    typing in a search box (lines 586 and 663), opening or closing a
    popover (lines 564 and 641), and a logo that fails to load. *)
Inductive Action : Type :=
| Add (side : Side) (player : Player)
| Remove (side : Side) (playerId : Z)
| TypeSearch (side : Side) (text : jsstring)
| SetPopover (side : Side) (isOpen : bool)
| LogoError (teamId : jsstring).

Definition step (st : State) (a : Action) : State :=
  match a with
  | Add Home p => addHomeMissingPlayer p st
  | Add Away p => addAwayMissingPlayer p st
  | Remove Home i => removeHomeMissingPlayer i st
  | Remove Away i => removeAwayMissingPlayer i st
  | TypeSearch Home q => setHomeSearchQuery q st
  | TypeSearch Away q => setAwaySearchQuery q st
  | SetPopover Home b => setHomePopoverOpen b st
  | SetPopover Away b => setAwayPopoverOpen b st
  | LogoError t => handleLogoError t st
  end.

Definition run (st : State) (actions : list Action) : State :=
  fold_left step actions st.

Definition missingPlayers (side : Side) (st : State) : list Player :=
  match side with
  | Home => homeMissingPlayers st
  | Away => awayMissingPlayers st
  end.

(** [l.map((p) => p.id).join(",")]. *)
Definition joinIds (l : list Player) : jsstring :=
  join (js ",") (map ToString_int (map id l)).

(** What the joined ids are made of: strings that are not empty and hold
    no comma (U+002C). *)
Definition keyField (x : jsstring) : Prop :=
  x <> [] /\ Forall (fun c => c <> 44%N) x.

(** The [queryKey] of the match prediction query (lines 101-107). *)
Definition predictionQueryKey (homeTeamId awayTeamId : jsstring) (st : State)
  : list jsstring :=
  [ js "match-prediction"; homeTeamId; awayTeamId;
    joinIds (homeMissingPlayers st); joinIds (awayMissingPlayers st) ].

(** The class strings returned by [getConfidenceBadgeColor] (lines 154-164). *)
Definition badgeGray : jsstring := js "bg-gray-500/20 text-gray-400 border-gray-500/30".
Definition badgeAmber : jsstring := js "bg-amber-500/20 text-amber-400 border-amber-500/30".
Definition badgeEmerald : jsstring := js "bg-emerald-500/20 text-emerald-400 border-emerald-500/30".
Definition badgeRed : jsstring := js "bg-red-500/20 text-red-400 border-red-500/30".
Definition badgeBlue : jsstring := js "bg-blue-500/20 text-blue-400 border-blue-500/30".

(** The keywords of the source; U+00E9 is the e with acute accent of
    "indecis" and "serre" as the source spells them. *)
Definition kw_indecis : jsstring := js "ind" ++ [233%N] ++ js "cis".
Definition kw_tight : jsstring := js "tight".
Definition kw_serre : jsstring := js "serr" ++ [233%N].
Definition kw_solid : jsstring := js "solid".
Definition kw_solide : jsstring := js "solide".
Definition kw_blowout : jsstring := js "blowout".

(** A label in capitals, "SERRE" with its accent (U+00C9). *)
Definition SERRE_upper : jsstring := js "SERR" ++ [201%N].

Definition getConfidenceBadgeColor (level : option jsstring) : jsstring :=
  match level with
  | None => badgeGray
  | Some level =>
      if negb (nonempty level) then badgeGray
      else
        let lower := toLowerCase level in
        if includes lower kw_indecis || includes lower kw_tight
           || includes lower kw_serre
        then badgeAmber
        else if includes lower kw_solid || includes lower kw_solide
        then badgeEmerald
        else if includes lower kw_blowout
        then badgeRed
        else badgeBlue
  end.

(** The same vocabulary as a table, in the order of the source's tests:
    the keywords of a row and the class string of its bucket.  A label is
    given the class of the first row one of whose keywords it includes. *)
Definition confidenceVocabulary : list (list jsstring * jsstring) :=
  [ ([kw_indecis; kw_tight; kw_serre], badgeAmber);
    ([kw_solid; kw_solide], badgeEmerald);
    ([kw_blowout], badgeRed) ].

Fixpoint firstMatch (rows : list (list jsstring * jsstring)) (lower default : jsstring)
  : jsstring :=
  match rows with
  | [] => default
  | (keywords, class) :: rest =>
      if existsb (includes lower) keywords then class
      else firstMatch rest lower default
  end.

(** The English names of the three buckets in the specification; a
    non-English synonym of a row is a keyword of the row that is none of
    them. *)
Definition englishKeywords : list jsstring := [kw_tight; kw_solid; kw_blowout].

Definition nonEnglishSynonyms (keywords : list jsstring) : list jsstring :=
  List.filter (fun k => negb (existsb (strict_eq k) englishKeywords)) keywords.

(** The win probability bars (lines 287-312): the [value] of each
    [Progress] and the text of the badge next to it, from
    [prediction.win_probability_home]. *)
Definition homeBarValue (win_probability_home : option number) : number :=
  Math_max zero (or0 win_probability_home).

Definition awayBarValue (win_probability_home : option number) : number :=
  Math_max zero (sub (Fin 100) (or0 win_probability_home)).

(** The integers of the two badges. *)
Definition roundedBars (win_probability_home : option number) : option Z * option Z :=
  (roundedInt (homeBarValue win_probability_home),
   roundedInt (awayBarValue win_probability_home)).

(** The comparison with [SpecFloat] at the raw value [(n - 500) / 10]:
    both bar values and both badge integers are the same. *)
Definition sameInt (a b : option Z) : bool :=
  match a, b with
  | Some x, Some y => (x =? y)%Z
  | _, _ => false
  end.

Definition sameValue (a : option Q) (b : number) : bool :=
  match a, b with
  | Some p, Fin q => Qeq_bool p q
  | _, _ => false
  end.

Definition agreesAt (n : nat) : bool :=
  let k := (Z.of_nat n - 500)%Z in
  let raw := Some (literal (k # 10)) in
  sameValue (fst (Binary64.bars k)) (homeBarValue raw) &&
  sameValue (snd (Binary64.bars k)) (awayBarValue raw) &&
  sameInt (fst (Binary64.badges k)) (fst (roundedBars raw)) &&
  sameInt (snd (Binary64.badges k)) (snd (roundedBars raw)).

(** The badge text [{x.toFixed(0)}%]. *)
Definition percentText (x : number) : option jsstring :=
  match toFixed0 x with
  | Some s => Some (s ++ js "%")
  | None => None
  end.

Definition homeBadgeText (win_probability_home : option number) : option jsstring :=
  percentText (homeBarValue win_probability_home).

Definition awayBadgeText (win_probability_home : option number) : option jsstring :=
  percentText (awayBarValue win_probability_home).

(** *** The rest of the component *)

(** [TodayGame] of the API service, as the component reads it.  The game
    id is taken as the string the template literals make of it. *)
Record TodayGame : Type := mkTodayGame {
  gameId : jsstring;
  homeTeam : jsstring;
  awayTeam : jsstring;
  game_homeTeamId : option jsstring;
  game_awayTeamId : option jsstring
}.

(** A [string | undefined] used as a condition. *)
Definition truthyId (i : option jsstring) : bool :=
  match i with
  | Some t => nonempty t
  | None => false
  end.

(** [getLogo] (lines 57-58). *)
Definition getLogo (i : option jsstring) : option jsstring :=
  match i with
  | Some t =>
      if nonempty t
      then Some (js "https://cdn.nba.com/logos/nba/" ++ t ++ js "/global/L/logo.svg")
      else None
  | None => None
  end.

(** The keys of the failure set, [`home-${game.gameId}`] and
    [`away-${game.gameId}`], and the conditions under which the logo image
    is rendered rather than the team name (lines 249 and 318). *)
Definition logoKey (side : Side) (game : TodayGame) : jsstring :=
  match side with
  | Home => js "home-" ++ gameId game
  | Away => js "away-" ++ gameId game
  end.

Definition logoShown (side : Side) (game : option TodayGame) (st : State) : bool :=
  match game with
  | Some g =>
      truthyId (match side with
                | Home => game_homeTeamId g
                | Away => game_awayTeamId g
                end)
      && negb (bool_decide (logoKey side g ∈ failedLogos st))
  | None => false
  end.

(** The roster search (lines 88-94).  The names of players are not
    confined to Latin-1, so [String.prototype.toLowerCase] is taken as a
    parameter here: the search is modelled for whatever case mapping the
    engine applies, and the properties below state what they need of it. *)
Definition playerSearchResults (toLowerCase : jsstring -> jsstring)
  (roster : list Player) (query : jsstring) : list Player :=
  List.filter
    (fun player => includes (toLowerCase (full_name player)) (toLowerCase query))
    roster.

Definition homePlayerSearchResults (toLowerCase : jsstring -> jsstring)
  (homeRoster : list Player) (st : State) : list Player :=
  playerSearchResults toLowerCase homeRoster (homeSearchQuery st).

Definition awayPlayerSearchResults (toLowerCase : jsstring -> jsstring)
  (awayRoster : list Player) (st : State) : list Player :=
  playerSearchResults toLowerCase awayRoster (awaySearchQuery st).

(** The code units of ASCII, on which the case mapping of the language is
    the map of [JS.toLowerCase]. *)
Definition isAscii (s : jsstring) : Prop := Forall (fun c => (c < 128)%N) s.

(** The [disabled] attribute of a search result,
    [l.find((p) => p.id === player.id) !== undefined] (lines 597-601), and
    of a roster button, [l.some((p) => p.id === player.id)] (lines 724-731). *)
Definition commandItemDisabled (l : list Player) (player : Player) : bool :=
  match findById l player with
  | Some _ => true
  | None => false
  end.

Definition isAbsent (l : list Player) (player : Player) : bool :=
  existsb (fun p => id p =? id player) l.

(** A click on the roster button of [player]: a disabled button runs no
    handler. *)
Definition clickRosterButton (side : Side) (player : Player) (st : State) : State :=
  if isAbsent (missingPlayers side st) player then st
  else step st (Add side player).

(** The margin line, [+{Math.abs(predicted_margin || 0).toFixed(1)}]
    (line 282). *)
Definition marginText (predicted_margin : option number) : option jsstring :=
  match toFixed 1 (Math_abs (or0 predicted_margin)) with
  | Some t => Some (js "+" ++ t)
  | None => None
  end.

(** A value of the impact analysis,
    [{value > 0 ? "+" : ""}{value.toFixed(1)}] (lines 435-436, 462-463,
    493-494 and 516-517), and the class of a spread (lines 429-433 and
    510-514). *)
Definition signedText (value : number) : option jsstring :=
  match toFixed 1 value with
  | Some t => Some ((if gtb value zero then js "+" else []) ++ t)
  | None => None
  end.

Definition spreadClass (value : number) : jsstring :=
  if gtb value zero then js "text-purple-400" else js "text-amber-400".

(** The fatigue and the absence row (lines 448-495): whether the badge is
    rendered, and the class of the value. *)
Definition fatigueBadgeShown (value : number) : bool := gtb (Math_abs value) zero.

Definition fatigueValueClass (value : number) : jsstring :=
  if strict_eq_num value zero then js "text-muted-foreground" else js "text-red-400".

Definition absencesBadgeShown (value : number) : bool := gtb (Math_abs value) (Fin 2).

Definition absencesValueClass (value : number) : jsstring :=
  if strict_eq_num value zero then js "text-muted-foreground" else js "text-orange-400".

(** The number of absences and the text of the absence row (lines 381 and
    474-476). *)
Definition absenceCount (st : State) : nat :=
  length (homeMissingPlayers st) + length (awayMissingPlayers st).

Definition absenceImpactText (st : State) : jsstring :=
  if (0 <? absenceCount st)%nat
  then ToString_int (Z.of_nat (absenceCount st)) ++ js " player(s) absent"
  else js "Full rosters".

(** The part of an action list that writes the absence list of a side. *)
Definition onSide (side : Side) (a : Action) : bool :=
  match a, side with
  | Add Home _, Home | Add Away _, Away => true
  | Remove Home _, Home | Remove Away _, Away => true
  | _, _ => false
  end.

End MatchPredictionModal.

(** ** The player details modal *)

Module PlayerDetailsModal.
Import JS.

Inductive StatCategory : Type := PTS | REB | AST | PRA.

(** The string of a category, its key in [predicted_stats]. *)
Definition statKey (stat : StatCategory) : jsstring :=
  match stat with
  | PTS => js "PTS"
  | REB => js "REB"
  | AST => js "AST"
  | PRA => js "PRA"
  end.

(** [PlayerFullPrediction] of the API service: the fields the component
    reads.  [predicted_stats] is the object indexed by [stat], and
    [advanced_metrics_projected_PRA] is the property [PRA] of the object
    [advanced_metrics_projected]; a property that is not there reads as
    [undefined]. *)
Record PlayerFullPrediction : Type := mkPlayerFullPrediction {
  player_id : Z;
  player : jsstring;
  team : jsstring;
  predicted_stats : gmap jsstring number;
  advanced_metrics_projected_PRA : option number
}.

(** [getProjectionValue] (lines 968-974): what the function returns at
    run time, [None] being [undefined]. *)
Definition getProjectionValue (player : PlayerFullPrediction) (stat : StatCategory)
  : option number :=
  match stat with
  | PRA => advanced_metrics_projected_PRA player
  | _ => Some (or0 (predicted_stats player !! statKey stat))
  end.

(** The [useState] cells of the component. *)
Record State : Type := mkState {
  selectedStat : StatCategory;
  bookmakerLine : jsstring;
  calculatorOpen : bool
}.

Definition initial : State := mkState PTS [] false.

Definition setSelectedStat (v : StatCategory) (st : State) : State :=
  mkState v (bookmakerLine st) (calculatorOpen st).

Definition setBookmakerLine (v : jsstring) (st : State) : State :=
  mkState (selectedStat st) v (calculatorOpen st).

Definition setCalculatorOpen (b : bool) (st : State) : State :=
  mkState (selectedStat st) (bookmakerLine st) b.

(** A call of [nbaApi.getCalculatorAnalysis], as the [queryFn] of the
    calculator query issues it when [analyzeCalculator()] runs. *)
Record CalculatorFetch : Type := mkCalculatorFetch {
  fetch_player_id : Z;
  fetch_projection : option number;
  fetch_line : number;
  fetch_stat : StatCategory
}.

Definition analyzeCalculator (player : PlayerFullPrediction) (st : State)
  : CalculatorFetch :=
  mkCalculatorFetch (player_id player)
                    (getProjectionValue player (selectedStat st))
                    (parseFloat (bookmakerLine st))
                    (selectedStat st).

(** The [onChange] of the target line (line 1355), the only writer of
    [bookmakerLine]: the state receives the value of the number input. *)
Definition typeTargetLine (typed : jsstring) (st : State) : State :=
  setBookmakerLine (DOM.numberInputValue typed) st.

(** [handleAnalyze] (lines 1015-1020): the next state and the fetches issued. *)
Definition handleAnalyze (player : PlayerFullPrediction) (st : State)
  : State * list CalculatorFetch :=
  if nonempty (bookmakerLine st) && gtb (parseFloat (bookmakerLine st)) zero
  then (setCalculatorOpen true st, [analyzeCalculator player st])
  else (st, []).

(** The [disabled] attribute of the Analyze button (line 1389). *)
Definition analyzeDisabled (st : State) : bool :=
  negb (nonempty (bookmakerLine st)) || leb (parseFloat (bookmakerLine st)) zero.

(** A click on the Analyze button: a disabled button runs no handler. *)
Definition clickAnalyze (player : PlayerFullPrediction) (st : State)
  : State * list CalculatorFetch :=
  if analyzeDisabled st then (st, []) else handleAnalyze player st.

(** [handleStatChange] (lines 1022-1025); the [Select] offers the four
    categories. *)
Definition handleStatChange (value : StatCategory) (st : State) : State :=
  setCalculatorOpen false (setSelectedStat value st).

(** [CalculatorResult] of the API service, as the component reads it. *)
Record CalculatorResult : Type := mkCalculatorResult {
  advice : option jsstring;
  color_code : option jsstring;
  probability_over : number;
  probability_under : number;
  confidence : option jsstring
}.

(** The result panel is rendered under [calculatorOpen && calculatorResult]
    (line 1396). *)
Definition calculatorPanelShown (st : State) (calculatorResult : option CalculatorResult)
  : bool :=
  calculatorOpen st && bool_decide (is_Some calculatorResult).

(** The class strings returned by [getRecommendationColor] (lines 1046-1067). *)
Definition panelEmerald : jsstring := js "bg-emerald-500/20 border-emerald-500/30 text-emerald-200".
Definition panelRed : jsstring := js "bg-red-500/20 border-red-500/30 text-red-200".
Definition panelAmber : jsstring := js "bg-amber-500/20 border-amber-500/30 text-amber-200".
Definition panelSlate : jsstring := js "bg-slate-800/30 border-slate-700/50 text-slate-200".

(** A [string | undefined] is truthy when it is a non-empty string. *)
Definition truthyString (s : option jsstring) : option jsstring :=
  match s with
  | Some t => if nonempty t then Some t else None
  | None => None
  end.

Definition getRecommendationColor (advice colorCode : option jsstring) : jsstring :=
  match truthyString colorCode with
  | Some colorCode =>
      let c := toLowerCase colorCode in
      if strict_eq c (js "green") then panelEmerald
      else if strict_eq c (js "red") then panelRed
      else if strict_eq c (js "amber") || strict_eq c (js "yellow") then panelAmber
      else panelSlate
  | None =>
      match truthyString advice with
      | None => panelSlate
      | Some advice =>
          let upper := toUpperCase advice in
          if includes upper (js "OVER") then panelEmerald
          else if includes upper (js "UNDER") then panelRed
          else panelAmber
      end
  end.

(** The averages of [h2h_avg]: the games-played count and the stat fields
    shown in the boxes. *)
Record Averages : Type := mkAverages {
  GP : number;
  avg_PTS : option number;
  avg_REB : option number;
  avg_AST : option number;
  avg_PRA : option number;
  avg_PA : option number;
  avg_PR : option number;
  avg_STL : option number;
  avg_BLK : option number
}.

Record PlayerHistory : Type := mkPlayerHistory {
  recent_form_avg : option Averages;
  h2h_avg : option Averages
}.

(** [historyData?.h2h_avg || null]. *)
Definition h2hAverage (historyData : option PlayerHistory) : option Averages :=
  match historyData with
  | Some h => h2h_avg h
  | None => None
  end.

(** What the head-to-head tab renders (lines 1296-1322). *)
Inductive H2HView : Type :=
| H2HSpinner
| H2HStats (avg : Averages)
| H2HPlaceholder.

Definition h2hTab (historyLoading : bool) (historyData : option PlayerHistory)
  : H2HView :=
  if historyLoading then H2HSpinner
  else
    match h2hAverage historyData with
    | Some avg => if gtb (GP avg) zero then H2HStats avg else H2HPlaceholder
    | None => H2HPlaceholder
    end.

(** *** The rest of the component *)

(** The initials of the avatar fallback,
    [player.player.split(" ").map((n) => n[0]).join("")] (line 1090). *)
Definition initials (name : jsstring) : jsstring :=
  flat_map firstUnit (split 32 name).

(** [historyData?.splits]: the averages at home and away, each an object
    indexed by the selected category. *)
Record Splits : Type := mkSplits {
  splits_home : option (gmap jsstring number);
  splits_away : option (gmap jsstring number)
}.

Inductive HomeOrAway : Type := AtHome | AtAway.

(** [getSelectedStatValue] (lines 1039-1044): [null] is [None]. *)
Definition getSelectedStatValue (splits : option Splits) (selectedStat : StatCategory)
  (homeOrAway : HomeOrAway) : option number :=
  match splits with
  | None => None
  | Some sp =>
      match (match homeOrAway with
             | AtHome => splits_home sp
             | AtAway => splits_away sp
             end) with
      | None => None
      | Some splitData => splitData !! statKey selectedStat
      end
  end.

(** [value?.toFixed(1) || "-"] (lines 1250, 1265 and 1433); [None] where
    [toFixed] leaves the modelled range. *)
Definition valueText (value : option number) : option jsstring :=
  match value with
  | None => Some (js "-")
  | Some v =>
      match toFixed 1 v with
      | Some t => Some (if nonempty t then t else js "-")
      | None => None
      end
  end.

(** The difference between the projection and the entered line (lines
    1369-1381): rendered when the line is not empty. *)
Definition difference (player : PlayerFullPrediction) (st : State) : number :=
  sub (ToNumber (getProjectionValue player (selectedStat st)))
      (parseFloat (bookmakerLine st)).

Definition differenceShown (st : State) : bool := nonempty (bookmakerLine st).

Definition differenceClass (player : PlayerFullPrediction) (st : State) : jsstring :=
  if gtb (difference player st) zero then js "text-emerald-300" else js "text-red-300".

Definition differenceText (player : PlayerFullPrediction) (st : State) : option jsstring :=
  match toFixed 1 (difference player st) with
  | Some t => Some ((if gtb (difference player st) zero then js "+" else []) ++ t)
  | None => None
  end.

(** The events that write the state: typing a target line (line 1355),
    selecting a category (line 1337) and a click on Analyze (line 1388).
    A run keeps the log of the calculator fetches issued. *)
Inductive Action : Type :=
| TypeLine (text : jsstring)
| SelectStat (value : StatCategory)
| ClickAnalyze.

Definition step (player : PlayerFullPrediction)
  (s : State * list CalculatorFetch) (a : Action) : State * list CalculatorFetch :=
  match a with
  | TypeLine text => (setBookmakerLine text (fst s), snd s)
  | SelectStat value => (handleStatChange value (fst s), snd s)
  | ClickAnalyze =>
      (fst (clickAnalyze player (fst s)), snd s ++ snd (clickAnalyze player (fst s)))
  end.

Definition run (player : PlayerFullPrediction) (actions : list Action)
  : State * list CalculatorFetch :=
  fold_left (step player) actions (initial, []).

End PlayerDetailsModal.

(** * Properties *)

(** ** Numbers *)

Section Numbers.
Import JS.
Local Open Scope Q_scope.

Lemma Qle_bool_false p q : Qle_bool p q = false <-> q < p.
Proof.
  split; intros H.
  - apply Qnot_le_lt. intros Hle. apply Qle_bool_iff in Hle. congruence.
  - destruct (Qle_bool p q) eqn:E; [|reflexivity].
    apply Qle_bool_iff in E. exfalso. revert E. apply Qlt_not_le, H.
Qed.

Lemma Qlt_bool_true p q : Qlt_bool p q = true <-> p < q.
Proof. unfold Qlt_bool. rewrite negb_true_iff. apply Qle_bool_false. Qed.

Lemma Qlt_bool_false p q : Qlt_bool p q = false <-> q <= p.
Proof. unfold Qlt_bool. rewrite negb_false_iff. apply Qle_bool_iff. Qed.

Lemma Math_max_zero_Fin q :
  Math_max zero (Fin q) = if Qlt_bool 0 q then Fin q else zero.
Proof. reflexivity. Qed.

Lemma Math_max_zero_nonneg x : x <> NaN -> leb zero (Math_max zero x) = true.
Proof.
  destruct x as [|[|]|q]; intros H; try congruence; try reflexivity.
  rewrite Math_max_zero_Fin. destruct (Qlt_bool 0 q) eqn:E; [|reflexivity].
  simpl. apply Qle_bool_iff. apply Qlt_bool_true in E. lra.
Qed.

Lemma or0_not_NaN x : or0 x <> NaN.
Proof. destruct x as [[|[|]|q]|]; simpl; try discriminate. destruct (Qeq_bool q 0); discriminate. Qed.

Lemma toFixed0_int_nonneg q : 0 <= q -> toFixed0_int q = Qfloor (q + (1 # 2)).
Proof. intros H. unfold toFixed0_int. apply Qle_bool_iff in H. now rewrite H. Qed.

Lemma toFixed0_int_comp p q : p == q -> toFixed0_int p = toFixed0_int q.
Proof.
  intros E. unfold toFixed0_int. rewrite E.
  destruct (Qle_bool 0 q); [apply Qfloor_comp | f_equal; apply Qfloor_comp]; now rewrite E.
Qed.

(** *** Rounding to binary64 is monotone *)

Lemma pow2_pos e : 0 < 2 ^ e.
Proof. apply Qpower_0_lt. reflexivity. Qed.

Lemma pow2_le a b : (a <= b)%Z -> 2 ^ a <= 2 ^ b.
Proof. intros H. apply Qpower_le_compat_l; [exact H | lra]. Qed.

Lemma pow2_plus a b : 2 ^ (a + b) == 2 ^ a * 2 ^ b.
Proof. apply Qpower_plus. lra. Qed.

Lemma pow2_Z n : (0 <= n)%Z -> inject_Z (2 ^ n) == 2 ^ n.
Proof. intros H. rewrite Zpower_Qpower by exact H. reflexivity. Qed.

Lemma roundHalfEven_cases y :
  roundHalfEven y = Qfloor y \/ roundHalfEven y = (Qfloor y + 1)%Z.
Proof.
  unfold roundHalfEven.
  destruct (y - inject_Z (Qfloor y) ?= 1 # 2); [destruct (Z.even _) | |]; auto.
Qed.

Lemma roundHalfEven_Z z : roundHalfEven (inject_Z z) = z.
Proof.
  unfold roundHalfEven. rewrite Qfloor_Z.
  destruct (Qcompare_spec (inject_Z z - inject_Z z) (1 # 2)); try (exfalso; lra).
  reflexivity.
Qed.

Lemma roundHalfEven_mono x y : x <= y -> (roundHalfEven x <= roundHalfEven y)%Z.
Proof.
  intros L. pose proof (Qfloor_resp_le _ _ L) as F.
  destruct (Z.eq_dec (Qfloor x) (Qfloor y)) as [E | N].
  - unfold roundHalfEven. rewrite <- E.
    destruct (Qcompare_spec (x - inject_Z (Qfloor x)) (1 # 2)),
             (Qcompare_spec (y - inject_Z (Qfloor x)) (1 # 2));
      try (exfalso; lra); try destruct (Z.even _); lia.
  - destruct (roundHalfEven_cases x) as [-> | ->],
             (roundHalfEven_cases y) as [-> | ->]; lia.
Qed.

(** [ilog2] is the exponent. *)
Lemma ilog2_spec a : 0 < a -> 2 ^ ilog2 a <= a /\ a < 2 ^ (ilog2 a + 1).
Proof.
  intros Ha. destruct a as [n d].
  assert (Hn : (0 < n)%Z) by (unfold Qlt in Ha; simpl in Ha; lia).
  unfold ilog2. cbn [Qnum Qden].
  pose proof (Z.log2_spec n Hn) as [N1 N2].
  pose proof (Z.log2_spec (Z.pos d) eq_refl) as [D1 D2].
  pose proof (Z.log2_nonneg n) as Pn. pose proof (Z.log2_nonneg (Z.pos d)) as Pd.
  set (la := Z.log2 n) in *. set (ld := Z.log2 (Z.pos d)) in *.
  unfold Z.succ in N2, D2.
  rewrite Zle_Qle in N1, D1. rewrite Zlt_Qlt in N2, D2.
  rewrite pow2_Z in N1, N2, D1, D2 by lia.
  rewrite pow2_plus in N2, D2. change (2 ^ 1) with 2 in N2, D2.
  assert (E : (n # d) * inject_Z (Z.pos d) == inject_Z n).
  { unfold Qeq, Qmult, inject_Z. cbn [Qnum Qden]. rewrite Pos.mul_1_r. ring. }
  assert (K : 2 ^ (la - ld) * 2 ^ ld == 2 ^ la).
  { rewrite <- pow2_plus. replace (la - ld + ld)%Z with la by lia. reflexivity. }
  pose proof (pow2_pos ld) as Pld. pose proof (pow2_pos (la - ld)) as Pk.
  destruct (Qle_bool (2 ^ (la - ld)) (n # d)) eqn:B.
  - apply Qle_bool_iff in B. split; [exact B |].
    rewrite pow2_plus. change (2 ^ 1) with 2.
    nra.
  - apply Qle_bool_false in B.
    pose proof (pow2_plus (la - ld - 1) 1) as H2.
    replace (la - ld - 1 + 1)%Z with (la - ld)%Z in H2 by lia.
    change (2 ^ 1) with 2 in H2.
    pose proof (pow2_pos (la - ld - 1)) as Pk'.
    split.
    + nra.
    + replace (la - ld - 1 + 1)%Z with (la - ld)%Z by lia. exact B.
Qed.

Lemma ilog2_mono a b : 0 < a -> a <= b -> (ilog2 a <= ilog2 b)%Z.
Proof.
  intros Ha L. assert (Hb : 0 < b) by lra.
  destruct (ilog2_spec a Ha) as [A1 _]. destruct (ilog2_spec b Hb) as [_ B2].
  apply Z.lt_succ_r. unfold Z.succ.
  apply (Qpower_lt_compat_l_inv 2); lra.
Qed.

Lemma roundMagnitude_nonneg a : 0 < a -> 0 <= roundMagnitude a.
Proof.
  intros Ha. unfold roundMagnitude.
  apply Qmult_le_0_compat; [| apply Qlt_le_weak, pow2_pos].
  change 0 with (inject_Z 0). rewrite <- Zle_Qle.
  rewrite <- (roundHalfEven_Z 0). apply roundHalfEven_mono.
  apply Qmult_le_0_compat; [lra | apply Qlt_le_weak, pow2_pos].
Qed.

(** Within one binade the multiples of the last place are rounded in
    order; across binades the power of two between them separates the
    results. *)
Lemma roundMagnitude_mono a b : 0 < a -> a <= b -> roundMagnitude a <= roundMagnitude b.
Proof.
  intros Ha L. assert (Hb : 0 < b) by lra.
  destruct (ilog2_spec a Ha) as [A1 A2]. destruct (ilog2_spec b Hb) as [B1 B2].
  pose proof (ilog2_mono a b Ha L) as K.
  unfold roundMagnitude.
  assert (E : (quantum a <= quantum b)%Z) by (unfold quantum; lia).
  destruct (Z.eq_dec (quantum a) (quantum b)) as [Eq | Ne].
  - rewrite <- Eq. apply Qmult_le_compat_r; [| apply Qlt_le_weak, pow2_pos].
    rewrite <- Zle_Qle. apply roundHalfEven_mono.
    apply Qmult_le_compat_r; [exact L | apply Qlt_le_weak, pow2_pos].
  - assert (Eb : quantum b = (ilog2 b - 52)%Z) by (unfold quantum in *; lia).
    assert (Ka : (ilog2 a + 1 <= ilog2 b)%Z) by (unfold quantum in *; lia).
    apply Qle_trans with (2 ^ ilog2 b).
    + set (ea := quantum a) in *.
      set (u := Z.max 0 (ilog2 a + 1 - ea)).
      assert (U : (roundHalfEven (a * 2 ^ (- ea)) <= 2 ^ u)%Z).
      { rewrite <- (roundHalfEven_Z (2 ^ u)). apply roundHalfEven_mono.
        rewrite pow2_Z by lia.
        apply Qle_trans with (2 ^ (ilog2 a + 1) * 2 ^ (- ea)).
        - apply Qmult_le_compat_r; [lra | apply Qlt_le_weak, pow2_pos].
        - rewrite <- pow2_plus. apply pow2_le. lia. }
      rewrite Zle_Qle in U. rewrite pow2_Z in U by lia.
      apply Qle_trans with (2 ^ u * 2 ^ ea).
      * apply Qmult_le_compat_r; [exact U | apply Qlt_le_weak, pow2_pos].
      * rewrite <- pow2_plus. apply pow2_le. unfold u, ea, quantum in *. lia.
    + rewrite Eb.
      assert (Lo : (2 ^ 52 <= roundHalfEven (b * 2 ^ (- (ilog2 b - 52))))%Z).
      { rewrite <- (roundHalfEven_Z (2 ^ 52)) at 1. apply roundHalfEven_mono.
        rewrite pow2_Z by lia.
        apply Qle_trans with (2 ^ ilog2 b * 2 ^ (- (ilog2 b - 52))).
        - rewrite <- pow2_plus. apply pow2_le. lia.
        - apply Qmult_le_compat_r; [lra | apply Qlt_le_weak, pow2_pos]. }
      rewrite Zle_Qle in Lo. rewrite pow2_Z in Lo by lia.
      apply Qle_trans with (2 ^ 52 * 2 ^ (ilog2 b - 52)).
      * rewrite <- pow2_plus. apply pow2_le. lia.
      * apply Qmult_le_compat_r; [exact Lo | apply Qlt_le_weak, pow2_pos].
Qed.

Lemma nearest_mono x y : x <= y -> nearest x <= nearest y.
Proof.
  intros L. unfold nearest.
  destruct (Qeq_bool x 0) eqn:X0; [apply Qeq_bool_eq in X0 | apply Qeq_bool_neq in X0];
  (destruct (Qeq_bool y 0) eqn:Y0; [apply Qeq_bool_eq in Y0 | apply Qeq_bool_neq in Y0]);
  (destruct (Qle_bool x 0) eqn:XL; [apply Qle_bool_iff in XL | apply Qle_bool_false in XL]);
  (destruct (Qle_bool y 0) eqn:YL; [apply Qle_bool_iff in YL | apply Qle_bool_false in YL]);
  try lra.
  all: try (assert (Hx : 0 < - x) by (destruct (Qlt_le_dec x 0); [lra | exfalso; apply X0; lra]);
            pose proof (roundMagnitude_nonneg _ Hx)).
  all: try (assert (Hy : 0 < - y) by (destruct (Qlt_le_dec y 0); [lra | exfalso; apply Y0; lra]);
            pose proof (roundMagnitude_nonneg _ Hy)).
  all: try (pose proof (roundMagnitude_nonneg _ XL)).
  all: try (pose proof (roundMagnitude_nonneg _ YL)).
  all: try lra.
  - assert (M : roundMagnitude (- y) <= roundMagnitude (- x)) by (apply roundMagnitude_mono; lra).
    lra.
  - apply roundMagnitude_mono; lra.
Qed.

Lemma nearest_comp x y : x == y -> nearest x == nearest y.
Proof. intros E. apply Qle_antisym; apply nearest_mono; lra. Qed.

(** Every result of [nearest] is a multiple of [2^-1074]. *)
Lemma roundMagnitude_grid a : exists m : Z, roundMagnitude a == inject_Z m * 2 ^ (-1074).
Proof.
  unfold roundMagnitude. set (r := roundHalfEven _). set (e := quantum a).
  assert (He : (-1074 <= e)%Z) by (unfold e, quantum; lia).
  exists (r * 2 ^ (e + 1074))%Z.
  rewrite inject_Z_mult, pow2_Z by lia.
  rewrite <- Qmult_assoc, <- pow2_plus.
  replace (e + 1074 + -1074)%Z with e by lia. reflexivity.
Qed.

Lemma nearest_grid x : exists m : Z, nearest x == inject_Z m * 2 ^ (-1074).
Proof.
  unfold nearest. destruct (Qeq_bool x 0); [exists 0%Z; ring|].
  destruct (Qle_bool x 0).
  - destruct (roundMagnitude_grid (- x)) as [m Hm]. exists (- m)%Z.
    rewrite Hm, inject_Z_opp. ring.
  - apply roundMagnitude_grid.
Qed.

(** The values the proofs below need unchanged by rounding. *)
Lemma nearest_small_halves :
  forallb (fun n => Qeq_bool (nearest ((Z.of_nat n - 1) # 2)) ((Z.of_nat n - 1) # 2))
          (seq 0 204) = true.
Proof. vm_compute. reflexivity. Qed.

Lemma nearest_half k : (-1 <= k <= 202)%Z -> nearest (k # 2) == k # 2.
Proof.
  intros Hk.
  assert (In_k : In (Z.to_nat (k + 1)) (seq 0 204)) by (apply in_seq; lia).
  pose proof (proj1 (forallb_forall _ _) nearest_small_halves _ In_k) as H.
  cbv beta in H. replace (Z.of_nat (Z.to_nat (k + 1)) - 1)%Z with k in H by lia.
  now apply Qeq_bool_eq.
Qed.

Lemma nearest_int n : (0 <= n <= 101)%Z -> nearest (inject_Z n) == inject_Z n.
Proof.
  intros Hn. assert (E : inject_Z n == (2 * n) # 2).
  { unfold Qeq, inject_Z. cbn [Qnum Qden]. lia. }
  rewrite (nearest_comp _ _ E), nearest_half by lia. symmetry. exact E.
Qed.

Lemma nearest_least : nearest (2 ^ (-1074)) == 2 ^ (-1074).
Proof. apply Qeq_bool_eq. vm_compute. reflexivity. Qed.

Lemma below_overflow : 202 < 2 ^ 1024.
Proof. vm_compute. reflexivity. Qed.

(** [round64]: the rounded value when it is in range, an infinity of the
    sign of the argument otherwise. *)
Lemma round64_not_NaN x : round64 x <> NaN.
Proof.
  unfold round64. destruct (Qle_bool _ _); [discriminate|].
  destruct (Qeq_bool _ _); discriminate.
Qed.

Lemma round64_spec x :
  (exists r, round64 x = Fin r /\ r == nearest x /\ Qabs (nearest x) < 2 ^ 1024) \/
  (round64 x = Inf (negb (Qle_bool 0 x)) /\ 2 ^ 1024 <= Qabs (nearest x)).
Proof.
  unfold round64. destruct (Qle_bool (2 ^ 1024) (Qabs (nearest x))) eqn:O.
  - right. split; [reflexivity | now apply Qle_bool_iff].
  - left. apply Qle_bool_false in O. destruct (Qeq_bool (nearest x) x) eqn:E.
    + exists x. apply Qeq_bool_eq in E. repeat split; [symmetry; exact E | exact O].
    + exists (Qred (nearest x)). repeat split; [apply Qred_correct | exact O].
Qed.

Lemma round64_between lo hi x :
  lo <= x -> x <= hi -> nearest lo == lo -> nearest hi == hi ->
  - (2 ^ 1024) < lo -> hi < 2 ^ 1024 ->
  exists r, round64 x = Fin r /\ r == nearest x /\ lo <= r /\ r <= hi.
Proof.
  intros L H Elo Ehi Blo Bhi.
  pose proof (nearest_mono _ _ L) as M1. pose proof (nearest_mono _ _ H) as M2.
  rewrite Elo in M1. rewrite Ehi in M2.
  set (B := 2 ^ 1024) in *.
  destruct (round64_spec x) as [(r & -> & Er & _) | [_ O]].
  - exists r. repeat split; try assumption; lra.
  - fold B in O. exfalso. revert O. apply Qlt_not_le. apply Qabs_Qlt_condition. lra.
Qed.

Lemma round64_ge lo x :
  0 <= lo -> lo <= x -> nearest lo == lo -> leb (Fin lo) (round64 x) = true.
Proof.
  intros P L Elo. pose proof (nearest_mono _ _ L) as M. rewrite Elo in M.
  destruct (round64_spec x) as [(r & -> & Er & _) | [-> _]].
  - simpl. apply Qle_bool_iff. lra.
  - assert (Px : Qle_bool 0 x = true) by (apply Qle_bool_iff; lra).
    rewrite Px. reflexivity.
Qed.

Lemma round64_gt b lo x :
  0 <= lo -> b < lo -> lo <= x -> nearest lo == lo -> ltb (Fin b) (round64 x) = true.
Proof.
  intros P Hb L Elo. pose proof (nearest_mono _ _ L) as M. rewrite Elo in M.
  destruct (round64_spec x) as [(r & -> & Er & _) | [-> _]].
  - simpl. apply Qlt_bool_true. lra.
  - assert (Px : Qle_bool 0 x = true) by (apply Qle_bool_iff; lra).
    rewrite Px. reflexivity.
Qed.

Lemma round64_nonpos x : x <= 0 -> ltb zero (round64 x) = false.
Proof.
  intros L. pose proof (nearest_mono _ _ L) as M.
  change (nearest 0) with 0 in M.
  destruct (round64_spec x) as [(r & -> & Er & _) | [-> O]].
  - simpl. apply Qlt_bool_false. lra.
  - destruct (Qle_bool 0 x) eqn:Px; [|reflexivity].
    apply Qle_bool_iff in Px. exfalso.
    assert (E : x == 0) by lra.
    pose proof (nearest_comp _ _ E) as N. change (nearest 0) with 0 in N.
    revert O. apply Qlt_not_le. rewrite N. reflexivity.
Qed.

Lemma sub_100_or0_not_NaN x : sub (Fin 100) (or0 x) <> NaN.
Proof.
  destruct (or0 x) as [|s|q] eqn:E; [now apply or0_not_NaN in E | discriminate |].
  apply round64_not_NaN.
Qed.

(** The two roundings of a percentage and of its rounded complement. *)
Lemma rounded_sum q :
  0 <= q -> q <= 100 ->
  exists r, round64 (100 - q) = Fin r /\ 0 <= r /\ r <= 100 /\
    (toFixed0_int q + toFixed0_int r = 100 \/
     toFixed0_int q + toFixed0_int r = 101)%Z.
Proof.
  intros H0 H100.
  set (n := Qfloor (q + (1 # 2))).
  pose proof (Qfloor_le (q + (1 # 2))) as Hn1.
  pose proof (Qlt_floor (q + (1 # 2))) as Hn2.
  fold n in Hn1, Hn2. rewrite inject_Z_plus in Hn2. change (inject_Z 1) with 1 in Hn2.
  assert (Hn : (0 <= n <= 100)%Z).
  { pose proof (Qfloor_resp_le 0 (q + (1 # 2))) as L0.
    pose proof (Qfloor_resp_le (q + (1 # 2)) (100 + (1 # 2))) as L1.
    change (Qfloor 0) with 0%Z in L0.
    change (Qfloor (100 + (1 # 2))) with 100%Z in L1.
    fold n in L0, L1. split; [apply L0 | apply L1]; lra. }
  assert (Elo : ((199 - 2 * n) # 2) == 100 - inject_Z n - (1 # 2)).
  { rewrite (Qmake_Qdiv (199 - 2 * n) 2). unfold Z.sub.
    rewrite inject_Z_plus, inject_Z_opp, inject_Z_mult.
    change (inject_Z 199) with 199. change (inject_Z 2) with 2.
    change (inject_Z (Z.pos 2)) with 2. field. }
  assert (Ehi : ((201 - 2 * n) # 2) == 100 - inject_Z n + (1 # 2)).
  { rewrite (Qmake_Qdiv (201 - 2 * n) 2). unfold Z.sub.
    rewrite inject_Z_plus, inject_Z_opp, inject_Z_mult.
    change (inject_Z 201) with 201. change (inject_Z 2) with 2.
    change (inject_Z (Z.pos 2)) with 2. field. }
  pose proof below_overflow as B.
  assert (Hn100 : inject_Z n <= 100) by (change 100 with (inject_Z 100); rewrite <- Zle_Qle; lia).
  assert (Hn0 : 0 <= inject_Z n) by (change 0 with (inject_Z 0); rewrite <- Zle_Qle; lia).
  destruct (round64_between ((199 - 2 * n) # 2) ((201 - 2 * n) # 2) (100 - q))
    as (r & Er & _ & R1 & R2);
    try (apply nearest_half; lia); try (set (T := 2 ^ 1024) in *; lra).
  destruct (round64_between 0 100 (100 - q)) as (r' & Er' & _ & R3 & R4);
    try lra; try (apply (nearest_int 0); lia); try (apply (nearest_int 100); lia);
    try (set (T := 2 ^ 1024) in *; lra).
  rewrite Er in Er'. injection Er' as <-.
  exists r. repeat split; try assumption.
  rewrite !toFixed0_int_nonneg by lra. fold n.
  set (m := Qfloor (r + (1 # 2))).
  pose proof (Qfloor_le (r + (1 # 2))) as Hm1.
  pose proof (Qlt_floor (r + (1 # 2))) as Hm2.
  fold m in Hm1, Hm2. rewrite inject_Z_plus in Hm2. change (inject_Z 1) with 1 in Hm2.
  assert (Hlo : inject_Z 99 < inject_Z (n + m)).
  { rewrite inject_Z_plus. change (inject_Z 99) with 99. lra. }
  assert (Hhi : inject_Z (n + m) <= inject_Z 101).
  { rewrite inject_Z_plus. change (inject_Z 101) with 101. lra. }
  rewrite <- Zlt_Qlt in Hlo. rewrite <- Zle_Qle in Hhi. lia.
Qed.
End Numbers.

Section WinProbabilityBars.
Import JS MatchPredictionModal.
Local Open Scope Q_scope.

Lemma home_of_Fin q :
  homeBarValue (Some (Fin q)) = if Qlt_bool 0 q then Fin q else zero.
Proof.
  unfold homeBarValue, or0, truthy. destruct (Qeq_bool q 0) eqn:E; cbn [negb].
  - apply Qeq_bool_eq in E.
    destruct (Qlt_bool 0 q) eqn:L; [apply Qlt_bool_true in L; lra | reflexivity].
  - apply Math_max_zero_Fin.
Qed.

Lemma away_of_Fin q :
  exists q', q' == q /\
    awayBarValue (Some (Fin q)) = Math_max zero (round64 (100 - q')).
Proof.
  unfold awayBarValue, or0, truthy. destruct (Qeq_bool q 0) eqn:E; cbn [negb].
  - exists 0. split; [symmetry; now apply Qeq_bool_eq | reflexivity].
  - exists q. split; reflexivity.
Qed.

Lemma agreesAt_all : forallb agreesAt (seq 0 2001) = true.
Proof. vm_compute. reflexivity. Qed.

(** [round64] against the float operations on the sample of module
    [Binary64]: the same number, subnormal, normal or infinite. *)
Lemma round64_agrees_on_sample :
  forallb Binary64.roundingAgreesAt Binary64.roundingSample = true.
Proof. vm_compute. reflexivity. Qed.

Lemma sameInt_eq a b : sameInt a b = true -> a = b.
Proof.
  destruct a, b; simpl; try discriminate. intros H. apply Z.eqb_eq in H. now subst.
Qed.

(** The model against [SpecFloat]: for every raw value with one decimal
    from -50.0 to 150.0, read as the float nearest to it, the two bar
    values computed with the float operations ([100 - x] rounded to nearest
    even) are those of the model, and so are the two badge integers. *)
Lemma binary64_agrees_on_tenths (k : Z) :
  (-500 <= k <= 1500)%Z ->
  sameValue (fst (Binary64.bars k)) (homeBarValue (Some (literal (k # 10)))) = true /\
  sameValue (snd (Binary64.bars k)) (awayBarValue (Some (literal (k # 10)))) = true /\
  Binary64.badges k = roundedBars (Some (literal (k # 10))).
Proof.
  intros Hk.
  assert (In_k : In (Z.to_nat (k + 500)) (seq 0 2001)) by (apply in_seq; lia).
  assert (Ek : (Z.of_nat (Z.to_nat (k + 500)) - 500)%Z = k) by lia.
  pose proof (proj1 (forallb_forall _ _) agreesAt_all _ In_k) as H.
  unfold agreesAt in H. rewrite Ek in H. cbv zeta in H.
  apply andb_true_iff in H as [H H4]. apply andb_true_iff in H as [H H3].
  apply andb_true_iff in H as [H1 H2].
  apply sameInt_eq in H3, H4.
  repeat split; try assumption.
  apply injective_projections; assumption.
Qed.

(** C1 (as amended).  Both bar values are clamped to a floor of 0 and to
    nothing else.  A raw value that is missing or NaN gives 0 and 100.  For
    a raw value within [0, 100] both lie in [0, 100] and the two rounded
    percentages add up to 100 or to 101.  A negative raw value gives 0 on
    the home side and, on the away side, 100 minus the raw value as binary64
    rounds it, unclamped: never below 100, and above 100 from a raw value
    of -1 down.
    A raw value above 100 is shown as it is on the home side, with 0 on the
    away side.  For 62.3 the badges read "62%" and "38%". *)
Theorem win_probability_bars (raw : option number) :
  (leb zero (homeBarValue raw) = true /\ leb zero (awayBarValue raw) = true) /\
  (raw = None \/ raw = Some NaN ->
     homeBarValue raw = zero /\ awayBarValue raw = Fin 100) /\
  (forall q, raw = Some (Fin q) -> 0 <= q -> q <= 100 ->
     exists hq aq,
       homeBarValue raw = Fin hq /\ awayBarValue raw = Fin aq /\
       (0 <= hq /\ hq <= 100) /\ (0 <= aq /\ aq <= 100) /\
       (toFixed0_int hq + toFixed0_int aq = 100 \/
        toFixed0_int hq + toFixed0_int aq = 101)%Z) /\
  (forall q, raw = Some (Fin q) -> q < 0 ->
     homeBarValue raw = zero /\
     awayBarValue raw = sub (Fin 100) (Fin q) /\
     leb (Fin 100) (awayBarValue raw) = true /\
     (q <= -1 -> ltb (Fin 100) (awayBarValue raw) = true)) /\
  (forall q, raw = Some (Fin q) -> 100 < q ->
     homeBarValue raw = Fin q /\ awayBarValue raw = zero) /\
  (homeBadgeText (Some (literal 62.3)) = Some (js "62%") /\
   awayBadgeText (Some (literal 62.3)) = Some (js "38%")).
Proof.
  split; [|split; [|split; [|split; [|split]]]].
  - split; apply Math_max_zero_nonneg; [apply or0_not_NaN | apply sub_100_or0_not_NaN].
  - intros [-> | ->]; split; vm_compute; reflexivity.
  - intros q -> H0 H100.
    destruct (away_of_Fin q) as (q' & Eq & Ha).
    destruct (rounded_sum q' ltac:(lra) ltac:(lra)) as (r & Er & R0 & R100 & Hsum).
    rewrite (toFixed0_int_comp _ _ Eq) in Hsum.
    rewrite home_of_Fin, Ha, Er, Math_max_zero_Fin.
    destruct (Qlt_bool 0 q) eqn:Lq; [apply Qlt_bool_true in Lq | apply Qlt_bool_false in Lq];
      (destruct (Qlt_bool 0 r) eqn:Lr; [apply Qlt_bool_true in Lr | apply Qlt_bool_false in Lr]).
    + exists q, r. repeat split; try lra. exact Hsum.
    + exists q, 0. repeat split; try lra.
      rewrite (toFixed0_int_comp 0 r) by lra. exact Hsum.
    + exists 0, r. repeat split; try lra.
      rewrite (toFixed0_int_comp 0 q) by lra. exact Hsum.
    + exists 0, 0. repeat split; try lra.
      rewrite (toFixed0_int_comp 0 q) at 1 3 by lra.
      rewrite (toFixed0_int_comp 0 r) by lra. exact Hsum.
  - intros q -> Hneg.
    assert (Ha : awayBarValue (Some (Fin q)) = Math_max zero (round64 (100 - q))).
    { unfold awayBarValue, or0, truthy. destruct (Qeq_bool q 0) eqn:E; [|reflexivity].
      apply Qeq_bool_eq in E. lra. }
    assert (L : leb (Fin 100) (round64 (100 - q)) = true).
    { apply round64_ge; [lra | lra | apply (nearest_int 100); lia]. }
    assert (P : ltb zero (round64 (100 - q)) = true).
    { apply (round64_gt 0 100); [lra | lra | lra | apply (nearest_int 100); lia]. }
    assert (M : Math_max zero (round64 (100 - q)) = round64 (100 - q)).
    { unfold Math_max, zero in *. rewrite P.
      destruct (round64 (100 - q)); [discriminate P | reflexivity ..]. }
    rewrite home_of_Fin, Ha, M. cbn [sub].
    split; [|split; [reflexivity|split; [exact L|]]].
    + destruct (Qlt_bool 0 q) eqn:Lq; [apply Qlt_bool_true in Lq; lra | reflexivity].
    + intros H1. apply (round64_gt 100 101); [lra | lra | lra | apply (nearest_int 101); lia].
  - intros q -> Hbig.
    destruct (away_of_Fin q) as (q' & Eq & Ha).
    rewrite home_of_Fin, Ha. split.
    + destruct (Qlt_bool 0 q) eqn:Lq; [reflexivity | apply Qlt_bool_false in Lq; lra].
    + assert (P : ltb zero (round64 (100 - q')) = false) by (apply round64_nonpos; lra).
      unfold Math_max, zero in *. rewrite P.
      destruct (round64 (100 - q')) eqn:R; [now apply round64_not_NaN in R | reflexivity ..].
  - split; vm_compute; reflexivity.
Qed.

Lemma win_probability_bars_witness :
  (exists hq aq,
     homeBarValue (Some (Fin 40)) = Fin hq /\ awayBarValue (Some (Fin 40)) = Fin aq /\
     (0 <= hq /\ hq <= 100) /\ (0 <= aq /\ aq <= 100) /\
     (toFixed0_int hq + toFixed0_int aq = 100 \/
      toFixed0_int hq + toFixed0_int aq = 101)%Z) /\
  (homeBarValue (Some (Fin (-5))) = zero /\
   awayBarValue (Some (Fin (-5))) = sub (Fin 100) (Fin (-5)) /\
   leb (Fin 100) (awayBarValue (Some (Fin (-5)))) = true /\
   ltb (Fin 100) (awayBarValue (Some (Fin (-5)))) = true) /\
  (homeBarValue (Some (Fin 150)) = Fin 150 /\ awayBarValue (Some (Fin 150)) = zero) /\
  (homeBarValue None = zero /\ awayBarValue None = Fin 100).
Proof.
  split; [|split; [|split]].
  - apply (proj1 (proj2 (proj2 (win_probability_bars (Some (Fin 40))))) 40 eq_refl);
      vm_compute; discriminate.
  - destruct (proj1 (proj2 (proj2 (proj2 (win_probability_bars (Some (Fin (-5)))))))
                (-5) eq_refl) as (H & A & L & G); [vm_compute; reflexivity|].
    split; [exact H|]. split; [exact A|]. split; [exact L|].
    apply G. vm_compute. discriminate.
  - apply (proj1 (proj2 (proj2 (proj2 (proj2 (win_probability_bars (Some (Fin 150)))))))
             150 eq_refl).
    vm_compute. reflexivity.
  - apply (proj1 (proj2 (win_probability_bars None))). now left.
Defined.

(** C1 as stated fails: at -5 the away bar is 105, at 150 the home bar is
    150 (both outside [0, 100], and at -5 the away value is not clamped to
    0), and at 62.5 the badges read "63%" and "38%", which add up to 101.
    The same integers come out of the float operations. *)
Lemma win_probability_counterexample :
  (awayBarValue (Some (Fin (-5))) = Fin 105 /\
   leb (awayBarValue (Some (Fin (-5)))) (Fin 100) = false /\
   awayBadgeText (Some (Fin (-5))) = Some (js "105%")) /\
  (homeBarValue (Some (Fin 150)) = Fin 150 /\
   leb (homeBarValue (Some (Fin 150))) (Fin 100) = false /\
   homeBadgeText (Some (Fin 150)) = Some (js "150%")) /\
  (homeBadgeText (Some (Fin 62.5)) = Some (js "63%") /\
   awayBadgeText (Some (Fin 62.5)) = Some (js "38%") /\
   (toFixed0_int 62.5 + toFixed0_int (100 - 62.5) = 101)%Z) /\
  (Binary64.badges (-50) = (Some 0, Some 105) /\
   Binary64.badges 1500 = (Some 150, Some 0) /\
   Binary64.badges 625 = (Some 63, Some 38))%Z.
Proof. vm_compute. repeat split; reflexivity. Qed.

End WinProbabilityBars.

Section ConfidenceBadge.
Import JS MatchPredictionModal.

Lemma getConfidenceBadgeColor_nonempty l :
  l <> [] ->
  getConfidenceBadgeColor (Some l) =
  firstMatch confidenceVocabulary (toLowerCase l) badgeBlue.
Proof.
  intros Hl. unfold getConfidenceBadgeColor, confidenceVocabulary.
  destruct l as [|c l]; [congruence|]. cbn [nonempty negb firstMatch existsb].
  destruct (includes _ kw_indecis), (includes _ kw_tight), (includes _ kw_serre),
    (includes _ kw_solid), (includes _ kw_solide), (includes _ kw_blowout);
    reflexivity.
Qed.

Lemma red_only_for_blowout level :
  getConfidenceBadgeColor level = badgeRed ->
  exists l, level = Some l /\ includes (toLowerCase l) kw_blowout = true.
Proof.
  assert (Hg : badgeGray <> badgeRed) by (vm_compute; discriminate).
  assert (Ha : badgeAmber <> badgeRed) by (vm_compute; discriminate).
  assert (He : badgeEmerald <> badgeRed) by (vm_compute; discriminate).
  assert (Hb : badgeBlue <> badgeRed) by (vm_compute; discriminate).
  unfold getConfidenceBadgeColor. destruct level as [l|]; [|intros; congruence].
  destruct (negb (nonempty l)); [intros; congruence|].
  destruct (_ || _ || _); [intros; congruence|].
  destruct (_ || _); [intros; congruence|].
  destruct (includes _ kw_blowout) eqn:E; [|intros; congruence].
  intros _. now exists l.
Qed.

(** C2 (as amended).  An absent or empty label gets the gray badge.  Any
    other label is classified on its lower-case form, by substring match
    against the fixed vocabulary with the first matching row winning:
    indecis/tight/serre give amber, solid/solide give emerald (green),
    blowout gives red, and blue is the default.  Two labels with the same
    lower-case form get the same class, so "Blowout", "BLOWOUT" and
    "blowout risk" are all red.  The amber and the green row have a
    non-English synonym; the red row has the keyword "blowout" alone, and
    only a label that includes it is ever red. *)
Theorem confidence_badge_bucketing (level : option jsstring) :
  ((level = None \/ level = Some []) -> getConfidenceBadgeColor level = badgeGray) /\
  (forall l, level = Some l -> l <> [] ->
     getConfidenceBadgeColor level =
     firstMatch confidenceVocabulary (toLowerCase l) badgeBlue) /\
  (forall l l', level = Some l -> toLowerCase l = toLowerCase l' ->
     getConfidenceBadgeColor (Some l') = getConfidenceBadgeColor level) /\
  (getConfidenceBadgeColor level = badgeRed ->
     exists l, level = Some l /\ includes (toLowerCase l) kw_blowout = true) /\
  (getConfidenceBadgeColor (Some (js "Blowout")) = badgeRed /\
   getConfidenceBadgeColor (Some (js "BLOWOUT")) = badgeRed /\
   getConfidenceBadgeColor (Some (js "blowout risk")) = badgeRed /\
   getConfidenceBadgeColor (Some (js "Tight")) = badgeAmber /\
   getConfidenceBadgeColor (Some SERRE_upper) = badgeAmber /\
   getConfidenceBadgeColor (Some (js "SOLIDE")) = badgeEmerald /\
   getConfidenceBadgeColor (Some (js "Even")) = badgeBlue) /\
  (map (fun row => nonEnglishSynonyms (fst row)) confidenceVocabulary =
   [[kw_indecis; kw_serre]; [kw_solide]; []]).
Proof.
  split; [|split; [|split; [|split; [|split]]]].
  - intros [-> | ->]; reflexivity.
  - intros l -> Hl. now apply getConfidenceBadgeColor_nonempty.
  - intros l l' -> E.
    destruct l as [|c l], l' as [|c' l']; try discriminate E; [reflexivity|].
    rewrite !getConfidenceBadgeColor_nonempty by discriminate. now rewrite E.
  - apply red_only_for_blowout.
  - vm_compute. repeat split; reflexivity.
  - vm_compute. reflexivity.
Qed.

Lemma confidence_badge_bucketing_witness :
  getConfidenceBadgeColor None = badgeGray /\
  getConfidenceBadgeColor (Some (js "Blowout risk")) =
    firstMatch confidenceVocabulary (toLowerCase (js "Blowout risk")) badgeBlue /\
  getConfidenceBadgeColor (Some (js "BLOWOUT")) =
    getConfidenceBadgeColor (Some (js "Blowout")) /\
  (exists l, Some (js "blowout risk") = Some l /\
             includes (toLowerCase l) kw_blowout = true).
Proof.
  split; [|split; [|split]].
  - exact (proj1 (confidence_badge_bucketing None) (or_introl eq_refl)).
  - apply (proj1 (proj2 (confidence_badge_bucketing (Some (js "Blowout risk"))))
             (js "Blowout risk") eq_refl).
    vm_compute. discriminate.
  - exact (proj1 (proj2 (proj2 (confidence_badge_bucketing (Some (js "Blowout")))))
             (js "Blowout") (js "BLOWOUT") eq_refl eq_refl).
  - exact (proj1 (proj2 (proj2 (proj2
             (confidence_badge_bucketing (Some (js "blowout risk")))))) eq_refl).
Defined.

(** C2 as stated fails twice: the red row of the vocabulary has no
    non-English synonym (no label without "blowout" is ever red), and the
    empty label matches no keyword yet is gray, not blue. *)
Lemma confidence_badge_counterexample :
  (forall keywords, In (keywords, badgeRed) confidenceVocabulary ->
     nonEnglishSynonyms keywords = []) /\
  ~ (exists l, includes (toLowerCase l) kw_blowout = false /\
               getConfidenceBadgeColor (Some l) = badgeRed) /\
  (getConfidenceBadgeColor (Some []) = badgeGray /\ badgeGray <> badgeBlue).
Proof.
  split; [|split].
  - intros kws [H | [H | [H | []]]]; inversion H; reflexivity.
  - intros (l & Hno & Hred). apply red_only_for_blowout in Hred.
    destruct Hred as (l0 & [= <-] & Hyes). congruence.
  - split; [reflexivity | vm_compute; discriminate].
Qed.

End ConfidenceBadge.

Section PredictionQueryKey.
Import JS MatchPredictionModal.

Lemma js_inj a b : js a = js b -> a = b.
Proof.
  unfold js. intros H.
  rewrite <- (string_of_list_ascii_of_string a), <- (string_of_list_ascii_of_string b).
  f_equal. revert H. generalize (list_ascii_of_string a) (list_ascii_of_string b).
  intros la. induction la as [|x la IH]; intros [|y lb]; simpl; intros H;
    try discriminate; auto.
  injection H as Hxy Hl. f_equal; [|auto].
  rewrite <- (ascii_N_embedding x), <- (ascii_N_embedding y). now rewrite Hxy.
Qed.

Lemma ToString_int_inj a b : ToString_int a = ToString_int b -> a = b.
Proof.
  unfold ToString_int. intros H. apply js_inj in H.
  assert (Hnn : forall z, Z.to_int z <> Decimal.Pos Decimal.Nil /\
                          Z.to_int z <> Decimal.Neg Decimal.Nil).
  { intros [|p|p]; simpl; split; try discriminate; intros [= E];
      revert E; apply DecimalPos.Unsigned.to_uint_nonnil. }
  apply DecimalZ.to_int_inj.
  destruct (Hnn a) as [Ha1 Ha2], (Hnn b) as [Hb1 Hb2].
  pose proof (NilZero.isi _ Ha1 Ha2) as Ia. pose proof (NilZero.isi _ Hb1 Hb2) as Ib.
  rewrite H in Ia. congruence.
Qed.

Lemma uint_digits_no_comma d :
  Forall (fun c => c <> 44%N) (js (NilEmpty.string_of_uint d)).
Proof. induction d; simpl; constructor; try discriminate; assumption. Qed.

Lemma ToString_int_keyField z : keyField (ToString_int z).
Proof.
  assert (Hu : forall d, keyField (js (NilZero.string_of_uint d))).
  { intros d. split.
    - destruct d; discriminate.
    - destruct d; try apply (uint_digits_no_comma (_ d)).
      repeat constructor. discriminate. }
  unfold ToString_int. destruct (Z.to_int z) as [d|d]; [apply Hu|].
  destruct (Hu d) as [_ Hd]. split; [discriminate|].
  constructor; [discriminate | exact Hd].
Qed.

Lemma join_cons sep x rest :
  join sep (x :: rest) =
  x ++ match rest with [] => [] | _ :: _ => sep ++ join sep rest end.
Proof. destruct rest; simpl; [now rewrite app_nil_r | reflexivity]. Qed.

Lemma split_at_comma x y t1 t2 :
  Forall (fun c => c <> 44%N) x -> Forall (fun c => c <> 44%N) y ->
  (t1 = [] \/ exists t, t1 = 44%N :: t) -> (t2 = [] \/ exists t, t2 = 44%N :: t) ->
  x ++ t1 = y ++ t2 -> x = y /\ t1 = t2.
Proof.
  revert y. induction x as [|c x IH]; intros [|d y] Hx Hy H1 H2 E; simpl in E.
  - now split.
  - exfalso. apply Forall_inv in Hy.
    destruct H1 as [H1 | [t H1]]; rewrite H1 in E; [discriminate | congruence].
  - exfalso. apply Forall_inv in Hx.
    destruct H2 as [H2 | [t H2]]; rewrite H2 in E; [discriminate | congruence].
  - injection E as -> E. inversion Hx; inversion Hy; subst.
    destruct (IH y) as [-> ->]; auto.
Qed.

Lemma join_inj l1 l2 :
  Forall keyField l1 -> Forall keyField l2 ->
  join [44%N] l1 = join [44%N] l2 -> l1 = l2.
Proof.
  revert l2. induction l1 as [|x r1 IH]; intros [|y r2] F1 F2 E.
  - reflexivity.
  - exfalso. inversion F2 as [|? ? [Hy _] _]; subst. rewrite join_cons in E.
    simpl in E. symmetry in E. apply app_eq_nil in E. tauto.
  - exfalso. inversion F1 as [|? ? [Hx _] _]; subst. rewrite join_cons in E.
    simpl in E. apply app_eq_nil in E. tauto.
  - inversion F1 as [|? ? [_ Hx] F1']; inversion F2 as [|? ? [_ Hy] F2']; subst.
    rewrite !join_cons in E. apply split_at_comma in E; auto.
    + destruct E as [-> E]. f_equal.
      destruct r1, r2; try discriminate E; [reflexivity|].
      injection E as E. now apply IH.
    + destruct r1; [left | right]; eauto.
    + destruct r2; [left | right]; eauto.
Qed.

Lemma joinIds_inj l1 l2 : joinIds l1 = joinIds l2 -> map id l1 = map id l2.
Proof.
  unfold joinIds. intros E. apply join_inj in E.
  - revert E. generalize (map id l1) (map id l2).
    intros la. induction la as [|a la IH]; intros [|b lb]; simpl; intros E;
      try discriminate; auto.
    injection E as Hab E. f_equal; [now apply ToString_int_inj | auto].
  - apply List.Forall_forall. intros x Hx. apply in_map_iff in Hx as (z & <- & _).
    apply ToString_int_keyField.
  - apply List.Forall_forall. intros x Hx. apply in_map_iff in Hx as (z & <- & _).
    apply ToString_int_keyField.
Qed.

(** C3 (as amended).  The query key is a function of the two id
    sequences, in the order the players were added: two selections have the
    same key exactly when, on each side, they list the same ids in the same
    order.  When both absence lists are empty the two id-join components
    are the empty string. *)
Theorem prediction_query_key (homeTeamId awayTeamId : jsstring) (st1 st2 : State) :
  (predictionQueryKey homeTeamId awayTeamId st1 =
   predictionQueryKey homeTeamId awayTeamId st2 <->
   map id (homeMissingPlayers st1) = map id (homeMissingPlayers st2) /\
   map id (awayMissingPlayers st1) = map id (awayMissingPlayers st2)) /\
  (homeMissingPlayers st1 = [] -> awayMissingPlayers st1 = [] ->
   predictionQueryKey homeTeamId awayTeamId st1 =
   [js "match-prediction"; homeTeamId; awayTeamId; []; []]).
Proof.
  split.
  - unfold predictionQueryKey. split.
    + intros E. injection E as Eh Ea. split; now apply joinIds_inj.
    + intros [Eh Ea]. unfold joinIds. now rewrite Eh, Ea.
  - intros Hh Ha. unfold predictionQueryKey. now rewrite Hh, Ha.
Qed.

Lemma prediction_query_key_witness :
  predictionQueryKey (js "LAL") (js "BOS") initial =
    [js "match-prediction"; js "LAL"; js "BOS"; []; []] /\
  predictionQueryKey (js "LAL") (js "BOS")
    (run initial [Add Home (mkPlayer 7 (js "A"))]) =
  predictionQueryKey (js "LAL") (js "BOS")
    (run initial [Add Home (mkPlayer 7 (js "Renamed")); Remove Away 3]).
Proof.
  split.
  - apply (proj2 (prediction_query_key (js "LAL") (js "BOS") initial initial));
      reflexivity.
  - apply (proj1 (prediction_query_key (js "LAL") (js "BOS") _ _)).
    split; reflexivity.
Defined.

(** C3 as stated fails: adding players 1 and 2 to the home side in the two
    possible orders gives the same set of ids and two different keys. *)
Lemma prediction_query_key_counterexample :
  let p1 := mkPlayer 1 (js "A") in
  let p2 := mkPlayer 2 (js "B") in
  let st12 := run initial [Add Home p1; Add Home p2] in
  let st21 := run initial [Add Home p2; Add Home p1] in
  (forall i, In i (map id (homeMissingPlayers st12)) <->
             In i (map id (homeMissingPlayers st21))) /\
  map id (awayMissingPlayers st12) = map id (awayMissingPlayers st21) /\
  predictionQueryKey (js "LAL") (js "BOS") st12 =
    [js "match-prediction"; js "LAL"; js "BOS"; js "1,2"; []] /\
  predictionQueryKey (js "LAL") (js "BOS") st21 =
    [js "match-prediction"; js "LAL"; js "BOS"; js "2,1"; []] /\
  predictionQueryKey (js "LAL") (js "BOS") st12 <>
  predictionQueryKey (js "LAL") (js "BOS") st21.
Proof.
  cbv zeta. split; [|split; [|split; [|split]]].
  - intros i. vm_compute. tauto.
  - reflexivity.
  - vm_compute. reflexivity.
  - vm_compute. reflexivity.
  - vm_compute. discriminate.
Qed.

End PredictionQueryKey.

Section AbsenceLists.
Import JS MatchPredictionModal.

Lemma findById_None l p : findById l p = None <-> id p ∉ map id l.
Proof.
  unfold findById. induction l as [|q l IH]; simpl.
  - split; [intros _; apply not_elem_of_nil | reflexivity].
  - rewrite not_elem_of_cons. destruct (Z.eqb_spec (id q) (id p)) as [E | E].
    + split; [discriminate | intros [H _]; congruence].
    + rewrite IH. split; [intros H; split; [congruence | exact H] | tauto].
Qed.

Lemma findById_Some l p :
  id p ∈ map id l -> exists q, findById l p = Some q.
Proof.
  intros Hin. destruct (findById l p) as [q|] eqn:E; [eauto|].
  apply findById_None in E. contradiction.
Qed.

Lemma NoDup_ids_snoc l p :
  NoDup (map id l) -> id p ∉ map id l -> NoDup (map id (l ++ [p])).
Proof.
  intros Hl Hp. rewrite map_app. apply NoDup_app. split; [exact Hl|]. split.
  - intros x Hx Hx'. apply list_elem_of_singleton in Hx'. congruence.
  - apply NoDup_singleton.
Qed.

Lemma removeMissing_subset l i x :
  x ∈ map id (removeMissing l i) -> x ∈ map id l.
Proof.
  unfold removeMissing. induction l as [|q l IH]; simpl; [trivial|].
  destruct (negb (id q =? i)); simpl; rewrite ?elem_of_cons; tauto.
Qed.

Lemma NoDup_ids_remove l i :
  NoDup (map id l) -> NoDup (map id (removeMissing l i)).
Proof.
  induction l as [|q l IH]; simpl; [trivial|].
  rewrite NoDup_cons. intros [Hq Hl]. unfold removeMissing in *. simpl.
  destruct (negb (id q =? i)); simpl; [|auto].
  apply NoDup_cons. split; [|auto].
  intros Hin. apply Hq. eapply removeMissing_subset, Hin.
Qed.

(** The invariant of the component: no id twice on either side. *)
Lemma step_NoDup st a :
  (forall side, NoDup (map id (missingPlayers side st))) ->
  forall side, NoDup (map id (missingPlayers side (step st a))).
Proof.
  intros Inv side. pose proof (Inv Home) as IH. pose proof (Inv Away) as IA.
  destruct a as [[|] p | [|] i | [|] q | [|] b | t], side; simpl in *;
    unfold addHomeMissingPlayer, addAwayMissingPlayer; simpl;
    try assumption; try (now apply NoDup_ids_remove).
  - destruct (findById (homeMissingPlayers st) p) eqn:E; simpl; [assumption|].
    apply NoDup_ids_snoc; [assumption | now apply findById_None].
  - destruct (findById (homeMissingPlayers st) p); assumption.
  - destruct (findById (awayMissingPlayers st) p); assumption.
  - destruct (findById (awayMissingPlayers st) p) eqn:E; simpl; [assumption|].
    apply NoDup_ids_snoc; [assumption | now apply findById_None].
Qed.

Lemma run_NoDup actions st :
  (forall side, NoDup (map id (missingPlayers side st))) ->
  forall side, NoDup (map id (missingPlayers side (run st actions))).
Proof.
  revert st. induction actions as [|a actions IH]; intros st Inv; simpl; [exact Inv|].
  apply IH. now apply step_NoDup.
Qed.

(** C5.  After any sequence of actions from the mounted state (adds and
    removes on either side, with any typing, popover and logo events in
    between), neither absence list holds an id twice; adding a player whose
    id is in the list of that side leaves the list as it is, and adding one
    whose id is not appends the player. *)
Theorem absence_lists_no_duplicates (actions : list Action) (side : Side) :
  NoDup (map id (missingPlayers side (run initial actions))) /\
  (forall st p, id p ∈ map id (missingPlayers side st) ->
     missingPlayers side (step st (Add side p)) = missingPlayers side st) /\
  (forall st p, id p ∉ map id (missingPlayers side st) ->
     missingPlayers side (step st (Add side p)) = missingPlayers side st ++ [p]).
Proof.
  split; [|split].
  - apply run_NoDup. intros []; apply NoDup_nil_2.
  - intros st p Hin. apply findById_Some in Hin as [q Hq].
    destruct side; simpl in *; unfold addHomeMissingPlayer, addAwayMissingPlayer;
      rewrite Hq; reflexivity.
  - intros st p Hnin. apply findById_None in Hnin.
    destruct side; simpl in *; unfold addHomeMissingPlayer, addAwayMissingPlayer;
      rewrite Hnin; reflexivity.
Qed.

Lemma absence_lists_no_duplicates_witness :
  let p := mkPlayer 7 (js "A") in
  let q := mkPlayer 9 (js "B") in
  let st := run initial [Add Home p] in
  missingPlayers Home (step st (Add Home p)) = [p] /\
  missingPlayers Home (step st (Add Home q)) = [p; q].
Proof.
  cbv zeta. split.
  - apply (proj1 (proj2 (absence_lists_no_duplicates [] Home))
             (run initial [Add Home (mkPlayer 7 (js "A"))]) (mkPlayer 7 (js "A"))).
    vm_compute. apply list_elem_of_here.
  - apply (proj2 (proj2 (absence_lists_no_duplicates [] Home))
             (run initial [Add Home (mkPlayer 7 (js "A"))]) (mkPlayer 9 (js "B"))).
    vm_compute. intros H. apply list_elem_of_singleton in H. discriminate H.
Defined.

(** C6.  Adding a player whose id is already in the absence list of a side
    changes two cells only: the search text of that side becomes empty and
    its popover is closed.  Both absence lists, the search text and the
    popover of the other side and the set of failed logos are as before. *)
Theorem add_present_player_frame (st : State) (p : Player) :
  (id p ∈ map id (homeMissingPlayers st) ->
   addHomeMissingPlayer p st =
   mkState (homeMissingPlayers st) (awayMissingPlayers st)
           [] (awaySearchQuery st) false (awayPopoverOpen st) (failedLogos st)) /\
  (id p ∈ map id (awayMissingPlayers st) ->
   addAwayMissingPlayer p st =
   mkState (homeMissingPlayers st) (awayMissingPlayers st)
           (homeSearchQuery st) [] (homePopoverOpen st) false (failedLogos st)).
Proof.
  split; intros Hin; apply findById_Some in Hin as [q Hq];
    unfold addHomeMissingPlayer, addAwayMissingPlayer; rewrite Hq; reflexivity.
Qed.

Lemma add_present_player_frame_witness :
  let p := mkPlayer 7 (js "A") in
  let st := mkState [p] [p] (js "a") (js "b") true true {[ js "home-1" ]} in
  addHomeMissingPlayer p st = mkState [p] [p] [] (js "b") false true {[ js "home-1" ]} /\
  addAwayMissingPlayer p st = mkState [p] [p] (js "a") [] true false {[ js "home-1" ]}.
Proof.
  intros p st. split.
  - exact (proj1 (add_present_player_frame st p) (list_elem_of_here _ _)).
  - exact (proj2 (add_present_player_frame st p) (list_elem_of_here _ _)).
Defined.

End AbsenceLists.

Section AnalyzeAction.
Import JS DOM PlayerDetailsModal.

Lemma gtb_zero_not_leb x : gtb x zero = true -> leb x zero = false.
Proof.
  destruct x as [|[|]|q]; simpl; try discriminate; try reflexivity.
  unfold gtb, ltb, zero, Qlt_bool. intros H. apply negb_true_iff in H. exact H.
Qed.

Lemma leb_zero_not_gtb x : leb x zero = true -> gtb x zero = false.
Proof.
  intros H. destruct (gtb x zero) eqn:E; [|reflexivity].
  apply gtb_zero_not_leb in E. congruence.
Qed.

Lemma gtb_zero_nonempty line : gtb (parseFloat line) zero = true -> nonempty line = true.
Proof. destruct line; [discriminate | reflexivity]. Qed.

Lemma leb_zero_or_gtb x : x <> NaN -> leb x zero = negb (gtb x zero).
Proof.
  destruct x as [|[|]|q]; intros H; try congruence; try reflexivity.
  unfold gtb, ltb, leb, zero, Qlt_bool. now rewrite negb_involutive.
Qed.

(** The button and the handler on any line, whether a number input can
    hand it over or not. *)
Lemma analyze_any_line (player : PlayerFullPrediction) (st : State) :
  ((bookmakerLine st = [] \/ parseFloat (bookmakerLine st) <> NaN) ->
   (analyzeDisabled st = false <-> gtb (parseFloat (bookmakerLine st)) zero = true)) /\
  ((bookmakerLine st = [] \/ leb (parseFloat (bookmakerLine st)) zero = true) ->
   analyzeDisabled st = true /\ clickAnalyze player st = (st, [])) /\
  (gtb (parseFloat (bookmakerLine st)) zero = true ->
   analyzeDisabled st = false /\
   handleAnalyze player st = (setCalculatorOpen true st, [analyzeCalculator player st]) /\
   clickAnalyze player st = (setCalculatorOpen true st, [analyzeCalculator player st]) /\
   calculatorOpen (fst (clickAnalyze player st)) = true) /\
  (gtb (parseFloat (bookmakerLine st)) zero = false ->
   handleAnalyze player st = (st, []) /\ clickAnalyze player st = (st, [])) /\
  (analyzeDisabled st = true -> handleAnalyze player st = (st, [])).
Proof.
  assert (No : gtb (parseFloat (bookmakerLine st)) zero = false ->
               handleAnalyze player st = (st, [])).
  { intros H. unfold handleAnalyze. rewrite H. now rewrite andb_false_r. }
  assert (Pos : gtb (parseFloat (bookmakerLine st)) zero = true ->
                analyzeDisabled st = false).
  { intros H. unfold analyzeDisabled.
    now rewrite (gtb_zero_nonempty _ H), (gtb_zero_not_leb _ H). }
  split; [|split; [|split; [|split]]].
  - intros H. split; [|exact Pos]. unfold analyzeDisabled.
    destruct H as [-> | H]; [discriminate|].
    rewrite (leb_zero_or_gtb _ H).
    destruct (gtb (parseFloat (bookmakerLine st)) zero); [reflexivity|].
    rewrite orb_true_r. discriminate.
  - intros H. assert (D : analyzeDisabled st = true).
    { unfold analyzeDisabled. destruct H as [-> | ->]; [reflexivity|].
      apply orb_true_r. }
    split; [exact D|]. unfold clickAnalyze. now rewrite D.
  - intros H. pose proof (Pos H) as D.
    assert (A : handleAnalyze player st =
                (setCalculatorOpen true st, [analyzeCalculator player st])).
    { unfold handleAnalyze. now rewrite (gtb_zero_nonempty _ H), H. }
    unfold clickAnalyze. rewrite D, A. repeat split; reflexivity.
  - intros H. split; [exact (No H)|].
    unfold clickAnalyze. rewrite (No H). now destruct (analyzeDisabled st).
  - unfold analyzeDisabled. intros D. apply orb_true_iff in D as [D | D].
    + unfold handleAnalyze. apply negb_true_iff in D. now rewrite D.
    + apply No. now apply leb_zero_not_gtb.
Qed.

(** A digit or the point is neither white space, nor a sign, nor the
    first letter of "Infinity". *)
Lemma plain_unit c :
  isDigit c = true \/ c = 46%N ->
  isWhiteSpace c = false /\ (c =? 43)%N = false /\ (c =? 45)%N = false /\
  (73 =? c)%N = false.
Proof.
  intros [H | ->]; [|repeat split].
  unfold isDigit, between in H. apply andb_true_iff in H as [H1 H2].
  apply N.leb_le in H1, H2.
  assert (E : (c = 48 \/ c = 49 \/ c = 50 \/ c = 51 \/ c = 52 \/ c = 53 \/ c = 54 \/
               c = 55 \/ c = 56 \/ c = 57)%N) by lia.
  repeat destruct E as [-> | E]; try subst c; repeat split.
Qed.

Lemma spanDigits_head u ip r1 :
  spanDigits u = (ip, r1) ->
  (ip <> [] -> exists c r, u = c :: r /\ isDigit c = true) /\
  (ip = [] -> r1 = u).
Proof.
  destruct u as [|c r]; simpl.
  - intros [= <- <-]. split; [congruence | reflexivity].
  - destruct (isDigit c) eqn:D.
    + destruct (spanDigits r) as [ds r']. intros [= <- <-].
      split; [intros _; now exists c, r | discriminate].
    + intros [= <- <-]. split; [congruence | reflexivity].
Qed.

(** A valid floating-point number is read by [parseFloat] as a number:
    nothing is trimmed, the sign is the "-" if there is one, and there are
    digits. *)
Lemma validUnsigned_parse neg u :
  validUnsigned u = true ->
  parseDecimal neg u <> NaN /\
  exists c r, u = c :: r /\ (isDigit c = true \/ c = 46%N).
Proof.
  unfold validUnsigned, parseDecimal.
  destruct (spanDigits u) as [ip r1] eqn:S.
  destruct (spanDigits_head _ _ _ S) as [Hd Hnil].
  destruct r1 as [|c r].
  - intros Hip. assert (Ne : ip <> []) by (destruct ip; [discriminate Hip | discriminate]).
    split; [|destruct (Hd Ne) as (c & r & -> & D); eauto].
    rewrite app_nil_r. destruct ip; [congruence | apply round64_not_NaN].
  - destruct (c =? 46)%N eqn:Pt.
    + destruct (spanDigits r) as [fp r2]. intros H. apply andb_true_iff in H as [Hfp _].
      assert (Ne : fp <> []) by (destruct fp; [discriminate Hfp | discriminate]).
      split.
      * destruct (ip ++ fp) eqn:A; [|apply round64_not_NaN].
        apply app_eq_nil in A as [_ A]. congruence.
      * destruct ip as [|d ip'].
        -- rewrite <- (Hnil eq_refl). apply N.eqb_eq in Pt.
           exists c, r. auto.
        -- destruct Hd as (c' & r' & -> & D); [discriminate|]. eauto.
    + intros H. apply andb_true_iff in H as [Hip _].
      assert (Ne : ip <> []) by (destruct ip; [discriminate Hip | discriminate]).
      split; [|destruct (Hd Ne) as (c' & r' & -> & D); eauto].
      rewrite app_nil_r. destruct ip; [congruence | apply round64_not_NaN].
Qed.

Lemma parseFloat_plain neg c r :
  isDigit c = true \/ c = 46%N ->
  (if startsWith (c :: r) (js "Infinity") then Inf neg else parseDecimal neg (c :: r)) =
  parseDecimal neg (c :: r).
Proof.
  intros H. destruct (plain_unit c H) as (_ & _ & _ & I).
  change (js "Infinity") with (73%N :: js "nfinity").
  cbn [startsWith]. now rewrite I.
Qed.

Lemma parseFloat_valid s : validFloatingPointNumber s = true -> parseFloat s <> NaN.
Proof.
  destruct s as [|c r]; [discriminate|]. cbn [validFloatingPointNumber].
  destruct (c =? 45)%N eqn:M.
  - apply N.eqb_eq in M. subst c. intros V.
    destruct (validUnsigned_parse true r V) as (P & c & r' & -> & H).
    change (parseFloat (45%N :: c :: r'))
      with (if startsWith (c :: r') (js "Infinity") then Inf true
            else parseDecimal true (c :: r')).
    now rewrite parseFloat_plain.
  - intros V.
    destruct (validUnsigned_parse false (c :: r) V) as (P & c' & r' & [= <- <-] & H).
    destruct (plain_unit c H) as (W & S43 & S45 & _).
    unfold parseFloat. cbn [trimStart]. rewrite W. cbn [readSign]. rewrite S43, S45.
    now rewrite parseFloat_plain.
Qed.

Lemma numberInputValue_cases typed :
  (validFloatingPointNumber typed = true /\ numberInputValue typed = typed) \/
  (validFloatingPointNumber typed = false /\ numberInputValue typed = []).
Proof. unfold numberInputValue. destruct (validFloatingPointNumber typed); auto. Qed.

(** C4.  The target line is what the number input hands over for the text
    typed into it: the empty string or a valid floating-point number, and
    every such value is handed over as it is.  With that line, the Analyze
    button is enabled if and only if the line parses to a positive number.
    When the text is not numeric, or the line parses to a number that is
    not positive, the button is disabled and neither a click nor the
    handler issues a fetch or changes the state.  When the line parses to a
    positive number, a click issues the calculator fetch, for that number,
    and opens the result panel. *)
Theorem analyze_action (player : PlayerFullPrediction) (st : State) (typed : jsstring) :
  let line := numberInputValue typed in
  let st' := typeTargetLine typed st in
  (bookmakerLine st' = line /\
   (line = [] \/ validFloatingPointNumber line = true) /\
   numberInputValue line = line) /\
  (analyzeDisabled st' = false <-> gtb (parseFloat line) zero = true) /\
  (validFloatingPointNumber typed = false \/ leb (parseFloat line) zero = true ->
   analyzeDisabled st' = true /\
   clickAnalyze player st' = (st', []) /\
   handleAnalyze player st' = (st', [])) /\
  (gtb (parseFloat line) zero = true ->
   analyzeDisabled st' = false /\
   handleAnalyze player st' = (setCalculatorOpen true st', [analyzeCalculator player st']) /\
   clickAnalyze player st' = (setCalculatorOpen true st', [analyzeCalculator player st']) /\
   calculatorOpen (fst (clickAnalyze player st')) = true /\
   fetch_line (analyzeCalculator player st') = parseFloat line).
Proof.
  intros line st'.
  assert (L : bookmakerLine st' = line) by reflexivity.
  destruct (analyze_any_line player st') as (Iff & Dis & Pos & _ & DisH).
  rewrite L in Iff, Dis, Pos.
  assert (Deliverable : line = [] \/ parseFloat line <> NaN).
  { unfold line. destruct (numberInputValue_cases typed) as [[V ->] | [_ ->]];
      [right; now apply parseFloat_valid | now left]. }
  split.
  { split; [exact L|]. unfold line.
    destruct (numberInputValue_cases typed) as [[V E] | [_ E]]; rewrite E.
    - split; [now right|]. unfold numberInputValue. now rewrite V.
    - split; [now left | reflexivity]. }
  split; [exact (Iff Deliverable)|]. split.
  - intros H.
    assert (H' : line = [] \/ leb (parseFloat line) zero = true).
    { destruct H as [H | H]; [left | now right].
      unfold line. destruct (numberInputValue_cases typed) as [[V _] | [_ ->]];
        [congruence | reflexivity]. }
    destruct (Dis H') as [D C]. split; [exact D|]. split; [exact C | exact (DisH D)].
  - intros H. destruct (Pos H) as (D & A & C & O).
    repeat split; assumption.
Qed.

Lemma analyze_action_witness :
  let p := mkPlayerFullPrediction 23 (js "A") (js "LAL") ∅ (Some (Fin 30)) in
  (analyzeDisabled (typeTargetLine (js "0") initial) = false <->
   gtb (parseFloat (numberInputValue (js "0"))) zero = true) /\
  (analyzeDisabled (typeTargetLine (js "abc") initial) = true /\
   clickAnalyze p (typeTargetLine (js "abc") initial) = (typeTargetLine (js "abc") initial, []) /\
   handleAnalyze p (typeTargetLine (js "abc") initial) = (typeTargetLine (js "abc") initial, [])) /\
  (analyzeDisabled (typeTargetLine (js "-5") initial) = true /\
   clickAnalyze p (typeTargetLine (js "-5") initial) = (typeTargetLine (js "-5") initial, []) /\
   handleAnalyze p (typeTargetLine (js "-5") initial) = (typeTargetLine (js "-5") initial, [])) /\
  (analyzeDisabled (typeTargetLine (js "1e-400") initial) = true /\
   clickAnalyze p (typeTargetLine (js "1e-400") initial) =
   (typeTargetLine (js "1e-400") initial, []) /\
   handleAnalyze p (typeTargetLine (js "1e-400") initial) =
   (typeTargetLine (js "1e-400") initial, [])) /\
  clickAnalyze p (typeTargetLine (js "22.5") (setSelectedStat PRA initial)) =
  (mkState PRA (js "22.5") true, [mkCalculatorFetch 23 (Some (Fin 30)) (Fin 22.5) PRA]).
Proof.
  intros p. split; [|split; [|split; [|split]]].
  - exact (proj1 (proj2 (analyze_action p initial (js "0")))).
  - apply (proj1 (proj2 (proj2 (analyze_action p initial (js "abc"))))).
    left. vm_compute. reflexivity.
  - apply (proj1 (proj2 (proj2 (analyze_action p initial (js "-5"))))).
    right. vm_compute. reflexivity.
  - apply (proj1 (proj2 (proj2 (analyze_action p initial (js "1e-400"))))).
    right. vm_compute. reflexivity.
  - pose proof (proj2 (proj2 (proj2 (analyze_action p (setSelectedStat PRA initial)
                                       (js "22.5"))))) as H.
    cbv zeta in H. destruct H as (_ & _ & C & _); [vm_compute; reflexivity|].
    rewrite C. vm_compute. reflexivity.
Defined.

End AnalyzeAction.

Section RecommendationColor.
Import JS PlayerDetailsModal.

Lemma strict_eq_false a b : strict_eq a b = false <-> a <> b.
Proof. unfold strict_eq. apply bool_decide_eq_false. Qed.

Lemma truthyString_nonempty c : c <> [] -> truthyString (Some c) = Some c.
Proof. destruct c; [congruence | reflexivity]. Qed.

Lemma truthyString_absent s : s = None \/ s = Some [] -> truthyString s = None.
Proof. intros [-> | ->]; reflexivity. Qed.

(** C7.  An explicit colour code, when present, decides alone and is
    matched on its lower-case form: "green" gives the emerald styling
    whatever the advice says, "red" the red one, "amber" or "yellow" the
    amber one, and any other code the neutral (slate) one.  Without a colour
    code the advice text decides on its upper-case form: it is emerald when
    it includes "OVER", else red when it includes "UNDER", else amber, and
    neutral (slate) when there is no advice either. *)
Theorem recommendation_color (advice colorCode : option jsstring) :
  (forall c, colorCode = Some c -> c <> [] ->
     (toLowerCase c = js "green" ->
        getRecommendationColor advice colorCode = panelEmerald) /\
     (toLowerCase c = js "red" ->
        getRecommendationColor advice colorCode = panelRed) /\
     (toLowerCase c = js "amber" \/ toLowerCase c = js "yellow" ->
        getRecommendationColor advice colorCode = panelAmber) /\
     (toLowerCase c <> js "green" -> toLowerCase c <> js "red" ->
      toLowerCase c <> js "amber" -> toLowerCase c <> js "yellow" ->
        getRecommendationColor advice colorCode = panelSlate)) /\
  (colorCode = None \/ colorCode = Some [] ->
     (forall a, advice = Some a -> a <> [] ->
        (includes (toUpperCase a) (js "OVER") = true ->
           getRecommendationColor advice colorCode = panelEmerald) /\
        (includes (toUpperCase a) (js "OVER") = false ->
         includes (toUpperCase a) (js "UNDER") = true ->
           getRecommendationColor advice colorCode = panelRed) /\
        (includes (toUpperCase a) (js "OVER") = false ->
         includes (toUpperCase a) (js "UNDER") = false ->
           getRecommendationColor advice colorCode = panelAmber)) /\
     (advice = None \/ advice = Some [] ->
        getRecommendationColor advice colorCode = panelSlate)) /\
  (getRecommendationColor advice (Some (js "green")) = panelEmerald /\
   getRecommendationColor advice (Some (js "GREEN")) = panelEmerald /\
   getRecommendationColor advice (Some (js "Red")) = panelRed /\
   getRecommendationColor advice (Some (js "Amber")) = panelAmber /\
   getRecommendationColor (Some (js "Lean Over 22.5")) None = panelEmerald /\
   getRecommendationColor (Some (js "under")) None = panelRed /\
   getRecommendationColor (Some (js "PASS")) None = panelAmber).
Proof.
  split; [|split].
  - intros c -> Hc. unfold getRecommendationColor.
    rewrite (truthyString_nonempty c Hc). cbv zeta.
    split; [|split; [|split]].
    + intros ->. reflexivity.
    + intros ->. reflexivity.
    + intros [-> | ->]; reflexivity.
    + intros Hg Hr Ha Hy.
      apply strict_eq_false in Hg, Hr, Ha, Hy. now rewrite Hg, Hr, Ha, Hy.
  - intros Hno. unfold getRecommendationColor.
    rewrite (truthyString_absent colorCode Hno). split.
    + intros a -> Ha. rewrite (truthyString_nonempty a Ha). cbv zeta.
      split; [|split].
      * intros ->. reflexivity.
      * intros -> ->. reflexivity.
      * intros -> ->. reflexivity.
    + intros Hadv. now rewrite (truthyString_absent advice Hadv).
  - repeat split; reflexivity.
Qed.

Lemma recommendation_color_witness :
  getRecommendationColor (Some (js "UNDER 22.5")) (Some (js "Green")) = panelEmerald /\
  getRecommendationColor (Some (js "Take the under")) (Some []) = panelRed.
Proof.
  split.
  - apply (proj1 (proj1 (recommendation_color (Some (js "UNDER 22.5")) (Some (js "Green")))
                        (js "Green") eq_refl ltac:(discriminate))).
    reflexivity.
  - apply (proj1 (proj2 (proj1 (proj1 (proj2
             (recommendation_color (Some (js "Take the under")) (Some [])))
             (or_intror eq_refl)) (js "Take the under") eq_refl ltac:(discriminate))));
      reflexivity.
Defined.

End RecommendationColor.

Section StatChange.
Import JS PlayerDetailsModal.

(** C8.  Selecting a stat category stores it as the selected category and
    closes the calculator panel, whatever the state was: the entered line is
    kept, and no calculator result is shown after the change, whatever
    result the query holds. *)
Theorem stat_change_closes_panel
  (st : State) (value : StatCategory) (calculatorResult : option CalculatorResult) :
  selectedStat (handleStatChange value st) = value /\
  calculatorOpen (handleStatChange value st) = false /\
  bookmakerLine (handleStatChange value st) = bookmakerLine st /\
  calculatorPanelShown (handleStatChange value st) calculatorResult = false.
Proof. repeat split. Qed.

End StatChange.

Section HeadToHead.
Import JS PlayerDetailsModal.

(** C9.  Once the history is fetched, the head-to-head tab shows the stats
    only for a head-to-head average whose games-played count is strictly
    positive; with a count of 0 it shows the placeholder, whatever the
    other fields of the average hold. *)
Theorem h2h_tab_requires_games (historyLoading : bool) (historyData : option PlayerHistory) :
  (forall avg, h2hTab historyLoading historyData = H2HStats avg ->
     historyLoading = false /\ h2hAverage historyData = Some avg /\
     gtb (GP avg) zero = true) /\
  (forall avg, historyLoading = false -> h2hAverage historyData = Some avg ->
     gtb (GP avg) zero = true -> h2hTab historyLoading historyData = H2HStats avg) /\
  (forall avg q, historyLoading = false -> h2hAverage historyData = Some avg ->
     GP avg = Fin q -> (q == 0)%Q -> h2hTab historyLoading historyData = H2HPlaceholder) /\
  (historyLoading = false -> h2hAverage historyData = None ->
     h2hTab historyLoading historyData = H2HPlaceholder).
Proof.
  unfold h2hTab. split; [|split; [|split]].
  - intros avg. destruct historyLoading; [discriminate|].
    destruct (h2hAverage historyData) as [a|]; [|discriminate].
    destruct (gtb (GP a) zero) eqn:E; [|discriminate].
    intros [= <-]. auto.
  - intros avg -> -> ->. reflexivity.
  - intros avg q -> -> -> Hq. simpl. unfold Qlt_bool.
    assert (H : Qle_bool q 0 = true) by (apply Qle_bool_iff; rewrite Hq; apply Qle_refl).
    now rewrite H.
  - intros -> ->. reflexivity.
Qed.

Lemma h2h_tab_requires_games_witness :
  let avg gp := mkAverages gp (Some (Fin 31)) (Some (Fin 8)) (Some (Fin 7))
                           (Some (Fin 46)) (Some (Fin 38)) (Some (Fin 39))
                           (Some (Fin 1)) (Some (Fin 2)) in
  h2hTab false (Some (mkPlayerHistory None (Some (avg zero)))) = H2HPlaceholder /\
  h2hTab false (Some (mkPlayerHistory None (Some (avg (Fin 3))))) = H2HStats (avg (Fin 3)) /\
  h2hTab false None = H2HPlaceholder.
Proof.
  intros avg. split; [|split].
  - exact (proj1 (proj2 (proj2 (h2h_tab_requires_games false
             (Some (mkPlayerHistory None (Some (avg zero)))))))
             (avg zero) 0%Q eq_refl eq_refl eq_refl (Qeq_refl 0)).
  - exact (proj1 (proj2 (h2h_tab_requires_games false
             (Some (mkPlayerHistory None (Some (avg (Fin 3)))))))
             (avg (Fin 3)) eq_refl eq_refl eq_refl).
  - exact (proj2 (proj2 (proj2 (h2h_tab_requires_games false None))) eq_refl eq_refl).
Defined.

End HeadToHead.

Section ProjectionValue.
Import JS PlayerDetailsModal.




End ProjectionValue.

(** * Further properties of the match prediction modal *)

Section RemoveAbsent.
Import JS MatchPredictionModal.

Lemma removeMissing_absent l i : i ∉ map id l -> removeMissing l i = l.
Proof.
  unfold removeMissing. induction l as [|q l IH]; simpl; [reflexivity|].
  rewrite not_elem_of_cons. intros [Hq Hl].
  destruct (Z.eqb_spec (id q) i) as [E | E]; [congruence|]. simpl. now rewrite IH.
Qed.

Lemma removeMissing_gone l i : i ∉ map id (removeMissing l i).
Proof.
  unfold removeMissing. induction l as [|q l IH]; simpl; [apply not_elem_of_nil|].
  destruct (Z.eqb_spec (id q) i) as [E | E]; simpl; [exact IH|].
  rewrite not_elem_of_cons. split; [congruence | exact IH].
Qed.

Lemma removeMissing_elem l i p :
  p ∈ removeMissing l i <-> p ∈ l /\ id p <> i.
Proof.
  unfold removeMissing. induction l as [|q l IH]; simpl.
  - split; [intros H | intros [H _]]; now apply elem_of_nil in H.
  - destruct (Z.eqb_spec (id q) i) as [E | E]; simpl; rewrite ?elem_of_cons, IH.
    + split; [tauto|]. intros [[-> | H] Hp]; [congruence | tauto].
    + split; [|tauto]. intros [-> | H]; tauto.
Qed.

Lemma removeMissing_sublist l i : sublist (removeMissing l i) l.
Proof.
  unfold removeMissing. induction l as [|q l IH]; simpl; [constructor|].
  destruct (negb (id q =? i)); now constructor.
Qed.

Lemma removeMissing_length l i :
  NoDup (map id l) -> i ∈ map id l -> S (length (removeMissing l i)) = length l.
Proof.
  induction l as [|q l IH]; simpl.
  - intros _ H. now apply elem_of_nil in H.
  - rewrite NoDup_cons, elem_of_cons. intros [Hq Hl] Hin. unfold removeMissing in *. simpl.
    destruct (Z.eqb_spec (id q) i) as [E | E]; simpl.
    + subst i. f_equal. f_equal. now apply removeMissing_absent.
    + f_equal. apply IH; [exact Hl|]. destruct Hin as [Hin | Hin]; [congruence | exact Hin].
Qed.

(** X1.  Removing an id that is not in the absence list of a side leaves
    the whole state as it is. *)
Theorem remove_absent_id_noop (st : State) (i : Z) :
  (i ∉ map id (homeMissingPlayers st) -> removeHomeMissingPlayer i st = st) /\
  (i ∉ map id (awayMissingPlayers st) -> removeAwayMissingPlayer i st = st).
Proof.
  split; intros H; unfold removeHomeMissingPlayer, removeAwayMissingPlayer;
    rewrite (removeMissing_absent _ _ H); now destruct st.
Qed.

Lemma remove_absent_id_noop_witness :
  let st := mkState [mkPlayer 7 (js "A")] [mkPlayer 9 (js "B")] (js "a") [] true false ∅ in
  removeHomeMissingPlayer 9 st = st /\ removeAwayMissingPlayer 7 st = st.
Proof.
  intros st. split.
  - apply (proj1 (remove_absent_id_noop st 9)). simpl.
    intros H. apply list_elem_of_singleton in H. discriminate H.
  - apply (proj2 (remove_absent_id_noop st 7)). simpl.
    intros H. apply list_elem_of_singleton in H. discriminate H.
Defined.

(** X2.  Removing an id from a side takes every player with that id out
    of its list and keeps the others, in their order; nothing else in the
    state changes.  In a list without duplicate ids that holds the id, the
    list gets shorter by exactly one. *)
Theorem remove_player_effect (st : State) (side : Side) (i : Z) :
  let l := missingPlayers side st in
  let st' := step st (Remove side i) in
  (i ∉ map id (missingPlayers side st')) /\
  (forall p, p ∈ missingPlayers side st' <-> p ∈ l /\ id p <> i) /\
  sublist (missingPlayers side st') l /\
  (forall other, other <> side -> missingPlayers other st' = missingPlayers other st) /\
  (homeSearchQuery st' = homeSearchQuery st /\ awaySearchQuery st' = awaySearchQuery st /\
   homePopoverOpen st' = homePopoverOpen st /\ awayPopoverOpen st' = awayPopoverOpen st /\
   failedLogos st' = failedLogos st) /\
  (NoDup (map id l) -> i ∈ map id l -> S (length (missingPlayers side st')) = length l).
Proof.
  destruct side; cbn zeta; simpl.
  - split; [apply removeMissing_gone|]. split; [intros p; apply removeMissing_elem|].
    split; [apply removeMissing_sublist|]. split; [intros []; [congruence | reflexivity]|].
    split; [repeat split|]. apply removeMissing_length.
  - split; [apply removeMissing_gone|]. split; [intros p; apply removeMissing_elem|].
    split; [apply removeMissing_sublist|]. split; [intros []; [reflexivity | congruence]|].
    split; [repeat split|]. apply removeMissing_length.
Qed.

Lemma remove_player_effect_witness :
  let a := mkPlayer 7 (js "A") in
  let b := mkPlayer 9 (js "B") in
  let st := mkState [a; b] [b] (js "a") [] true false ∅ in
  missingPlayers Away (step st (Remove Home 7)) = missingPlayers Away st /\
  S (length (missingPlayers Home (step st (Remove Home 7)))) = 2%nat.
Proof.
  intros a b st. split.
  - apply (proj1 (proj2 (proj2 (proj2 (remove_player_effect st Home 7))))). discriminate.
  - apply (proj2 (proj2 (proj2 (proj2 (proj2 (remove_player_effect st Home 7)))))).
    + simpl. apply NoDup_cons. split.
      * intros H. apply list_elem_of_singleton in H. discriminate H.
      * apply NoDup_singleton.
    + simpl. apply list_elem_of_here.
Defined.

(** X3.  Adding a player whose id is not in the list and then removing
    that id gives back the list; the state differs from the one before only
    by the emptied search text and the closed popover of that side. *)
Theorem add_then_remove (st : State) (p : Player) :
  (id p ∉ map id (homeMissingPlayers st) ->
   removeHomeMissingPlayer (id p) (addHomeMissingPlayer p st) =
   setHomePopoverOpen false (setHomeSearchQuery [] st)) /\
  (id p ∉ map id (awayMissingPlayers st) ->
   removeAwayMissingPlayer (id p) (addAwayMissingPlayer p st) =
   setAwayPopoverOpen false (setAwaySearchQuery [] st)).
Proof.
  assert (R : forall l, id p ∉ map id l -> removeMissing (l ++ [p]) (id p) = l).
  { intros l H. unfold removeMissing. rewrite List.filter_app. simpl.
    rewrite Z.eqb_refl. simpl. rewrite app_nil_r. now apply removeMissing_absent. }
  split; intros H; pose proof (proj2 (findById_None _ _) H) as F;
    unfold addHomeMissingPlayer, addAwayMissingPlayer,
           removeHomeMissingPlayer, removeAwayMissingPlayer;
    rewrite F; simpl; rewrite (R _ H); reflexivity.
Qed.

Lemma add_then_remove_witness :
  let a := mkPlayer 7 (js "A") in
  let st := mkState [a] [] (js "b") [] true false ∅ in
  removeHomeMissingPlayer 9 (addHomeMissingPlayer (mkPlayer 9 (js "B")) st) =
  mkState [a] [] [] [] false false ∅.
Proof.
  intros a st.
  apply (proj1 (add_then_remove st (mkPlayer 9 (js "B")))). simpl.
  intros H. apply list_elem_of_singleton in H. discriminate H.
Defined.

End RemoveAbsent.

Section AbsenceDynamics.
Import JS MatchPredictionModal.

Lemma add_missing_cases st side p :
  ((id p ∈ map id (missingPlayers side st)) /\
   missingPlayers side (step st (Add side p)) = missingPlayers side st) \/
  ((id p ∉ map id (missingPlayers side st)) /\
   missingPlayers side (step st (Add side p)) = missingPlayers side st ++ [p]).
Proof.
  destruct side; simpl; unfold addHomeMissingPlayer, addAwayMissingPlayer.
  - destruct (findById (homeMissingPlayers st) p) eqn:E.
    + left. split; [|reflexivity]. destruct (decide (id p ∈ map id (homeMissingPlayers st)))
        as [H | H]; [exact H|]. apply findById_None in H. congruence.
    + right. split; [now apply findById_None | reflexivity].
  - destruct (findById (awayMissingPlayers st) p) eqn:E.
    + left. split; [|reflexivity]. destruct (decide (id p ∈ map id (awayMissingPlayers st)))
        as [H | H]; [exact H|]. apply findById_None in H. congruence.
    + right. split; [now apply findById_None | reflexivity].
Qed.

Lemma key_eq_iff h a st1 st2 :
  predictionQueryKey h a st1 = predictionQueryKey h a st2 <->
  joinIds (homeMissingPlayers st1) = joinIds (homeMissingPlayers st2) /\
  joinIds (awayMissingPlayers st1) = joinIds (awayMissingPlayers st2).
Proof.
  unfold predictionQueryKey. split.
  - intros E. injection E as E1 E2. now split.
  - intros [-> ->]. reflexivity.
Qed.

Lemma other_side_untouched st side a other :
  other <> side -> onSide side a = true ->
  missingPlayers other (step st a) = missingPlayers other st.
Proof.
  intros Hne Ha.
  destruct a as [[|] p | [|] i | [|] q | [|] b | t], side, other;
    try discriminate Ha; try congruence; simpl;
    unfold addHomeMissingPlayer, addAwayMissingPlayer;
    try reflexivity.
  - now destruct (findById (homeMissingPlayers st) p).
  - now destruct (findById (awayMissingPlayers st) p).
Qed.

(** X4.  The query key of the prediction follows the absence lists: an add
    leaves the key as it is exactly when the id of the player is already in
    the list of that side, and a remove leaves it as it is exactly when the
    id is not in the list.  Every other add or remove gives a new key, and
    so a new prediction request. *)
Theorem query_key_follows_absences
  (homeTeamId awayTeamId : jsstring) (st : State) (side : Side) (p : Player) (i : Z) :
  (predictionQueryKey homeTeamId awayTeamId (step st (Add side p)) =
   predictionQueryKey homeTeamId awayTeamId st <->
   id p ∈ map id (missingPlayers side st)) /\
  (predictionQueryKey homeTeamId awayTeamId (step st (Remove side i)) =
   predictionQueryKey homeTeamId awayTeamId st <->
   i ∉ map id (missingPlayers side st)).
Proof.
  assert (Side_eq : forall st', 
            predictionQueryKey homeTeamId awayTeamId st' =
            predictionQueryKey homeTeamId awayTeamId st ->
            map id (missingPlayers side st') = map id (missingPlayers side st)).
  { intros st' E. apply key_eq_iff in E as [E1 E2].
    destruct side; simpl; now apply joinIds_inj. }
  split; split.
  - intros E. apply Side_eq in E.
    destruct (add_missing_cases st side p) as [[H _] | [_ H]]; [exact H|].
    rewrite H, map_app in E. apply (f_equal (@length Z)) in E.
    rewrite length_app in E. simpl in E. lia.
  - intros H. apply findById_Some in H as [q Hq]. apply key_eq_iff.
    destruct side; simpl in *; unfold addHomeMissingPlayer, addAwayMissingPlayer;
      rewrite Hq; split; reflexivity.
  - intros E. apply Side_eq in E. rewrite <- E.
    destruct side; simpl; apply removeMissing_gone.
  - intros H. apply key_eq_iff.
    destruct side; simpl in *; rewrite (removeMissing_absent _ _ H); split; reflexivity.
Qed.

Lemma query_key_follows_absences_witness :
  let a := mkPlayer 7 (js "A") in
  let st := mkState [a] [] [] [] false false ∅ in
  predictionQueryKey (js "LAL") (js "BOS") (step st (Add Home (mkPlayer 7 (js "Again")))) =
    predictionQueryKey (js "LAL") (js "BOS") st /\
  predictionQueryKey (js "LAL") (js "BOS") (step st (Remove Home 7)) <>
    predictionQueryKey (js "LAL") (js "BOS") st.
Proof.
  intros a st. split.
  - apply (proj1 (query_key_follows_absences (js "LAL") (js "BOS") st Home
                    (mkPlayer 7 (js "Again")) 0)).
    simpl. apply list_elem_of_here.
  - intros E.
    apply (proj2 (query_key_follows_absences (js "LAL") (js "BOS") st Home a 7)) in E.
    apply E. simpl. apply list_elem_of_here.
Defined.

Lemma off_side_untouched st side a :
  onSide side a = false -> missingPlayers side (step st a) = missingPlayers side st.
Proof.
  intros Ha.
  destruct a as [[|] p | [|] i | [|] q | [|] b | t], side;
    try discriminate Ha; simpl; unfold addHomeMissingPlayer, addAwayMissingPlayer;
    try reflexivity.
  - now destruct (findById (homeMissingPlayers st) p).
  - now destruct (findById (awayMissingPlayers st) p).
Qed.

Lemma on_side_congruence st1 st2 side a :
  missingPlayers side st1 = missingPlayers side st2 ->
  missingPlayers side (step st1 a) = missingPlayers side (step st2 a).
Proof.
  intros E.
  destruct (onSide side a) eqn:Ha; [|now rewrite !off_side_untouched].
  destruct a as [[|] p | [|] i | [|] q | [|] b | t], side;
    try discriminate Ha; simpl in *; unfold addHomeMissingPlayer, addAwayMissingPlayer;
    rewrite ?E; try reflexivity.
  - destruct (findById (homeMissingPlayers st2) p); simpl; now rewrite ?E.
  - destruct (findById (awayMissingPlayers st2) p); simpl; now rewrite ?E.
Qed.

(** X5.  The two sides are independent: the absence list of a side after
    any sequence of actions is the one obtained from the adds and removes
    of that side alone, whatever happened on the other side, in the search
    boxes, the popovers and the logos. *)
Theorem sides_are_independent (actions : list Action) (side : Side) (st : State) :
  missingPlayers side (run st actions) =
  missingPlayers side (run st (List.filter (onSide side) actions)).
Proof.
  unfold run.
  assert (G : forall st1 st2, missingPlayers side st1 = missingPlayers side st2 ->
            missingPlayers side (fold_left step actions st1) =
            missingPlayers side (fold_left step (List.filter (onSide side) actions) st2)).
  { induction actions as [|a actions IH]; intros st1 st2 E; simpl; [exact E|].
    destruct (onSide side a) eqn:Ha; simpl.
    - apply IH. now apply on_side_congruence.
    - apply IH. now rewrite off_side_untouched. }
  now apply G.
Qed.

(** X6.  Nobody is absent who was not selected: every player in the
    absence list of a side, after any sequence of actions from the mounted
    state, was put there by an add on that side. *)
Theorem absent_players_were_added (actions : list Action) (side : Side) (p : Player) :
  p ∈ missingPlayers side (run initial actions) -> Add side p ∈ actions.
Proof.
  assert (G : forall st, p ∈ missingPlayers side (run st actions) ->
                         p ∈ missingPlayers side st \/ Add side p ∈ actions).
  { induction actions as [|a actions IH]; intros st H; simpl in H; [now left|].
    apply IH in H as [H | H]; [|right; now apply list_elem_of_further].
    destruct (onSide side a) eqn:Ha; [|left; now rewrite off_side_untouched in H].
    destruct a as [s q | s i | s q | s b | t];
      try (destruct s, side; discriminate Ha); try (destruct side; discriminate Ha).
    - assert (s = side) as -> by (destruct s, side; try reflexivity; discriminate Ha).
      destruct (add_missing_cases st side q) as [[_ E] | [_ E]]; rewrite E in H.
      + now left.
      + apply elem_of_app in H as [H | H]; [now left|].
        apply list_elem_of_singleton in H. subst q. right. apply list_elem_of_here.
    - assert (s = side) as -> by (destruct s, side; try reflexivity; discriminate Ha).
      left. destruct side; simpl in H; apply removeMissing_elem in H; tauto. }
  intros H. apply G in H as [H | H]; [|exact H].
  destruct side; simpl in H; now apply elem_of_nil in H.
Qed.

Lemma absent_players_were_added_witness :
  let a := mkPlayer 7 (js "A") in
  Add Home a ∈ [TypeSearch Home (js "a"); Add Home a; Remove Away 7].
Proof.
  intros a.
  apply (absent_players_were_added
           [TypeSearch Home (js "a"); Add Home a; Remove Away 7] Home a).
  vm_compute. apply list_elem_of_here.
Defined.

Lemma isAbsent_spec l p : isAbsent l p = true <-> id p ∈ map id l.
Proof.
  unfold isAbsent. induction l as [|q l IH]; simpl.
  - split; [discriminate | intros H; now apply elem_of_nil in H].
  - rewrite elem_of_cons, orb_true_iff, IH, Z.eqb_eq. split; intros [H | H]; auto.
Qed.

(** X7.  A search result and a roster button of the same player are
    disabled in the same states: exactly when the id of the player is in
    the absence list, which is when an add would not change the list.  A
    click on a roster button therefore either does nothing at all or
    appends the player, making the list longer by one. *)
Theorem disabled_means_already_absent (st : State) (side : Side) (p : Player) :
  commandItemDisabled (missingPlayers side st) p = isAbsent (missingPlayers side st) p /\
  (isAbsent (missingPlayers side st) p = true <-> id p ∈ map id (missingPlayers side st)) /\
  (isAbsent (missingPlayers side st) p = true -> clickRosterButton side p st = st) /\
  (isAbsent (missingPlayers side st) p = false ->
   missingPlayers side (clickRosterButton side p st) = missingPlayers side st ++ [p]).
Proof.
  split; [|split; [apply isAbsent_spec|split]].
  - unfold commandItemDisabled.
    destruct (findById (missingPlayers side st) p) eqn:E.
    + symmetry. apply isAbsent_spec.
      destruct (decide (id p ∈ map id (missingPlayers side st))) as [H | H]; [exact H|].
      apply findById_None in H. congruence.
    + apply findById_None in E.
      destruct (isAbsent (missingPlayers side st) p) eqn:A; [|reflexivity].
      apply isAbsent_spec in A. contradiction.
  - intros H. unfold clickRosterButton. now rewrite H.
  - intros H. unfold clickRosterButton. rewrite H.
    destruct (add_missing_cases st side p) as [[Hin _] | [_ E]]; [|exact E].
    apply isAbsent_spec in Hin. congruence.
Qed.

Lemma disabled_means_already_absent_witness :
  let a := mkPlayer 7 (js "A") in
  let st := mkState [a] [] (js "x") [] true false ∅ in
  clickRosterButton Home a st = st /\
  missingPlayers Away (clickRosterButton Away a st) = [a].
Proof.
  intros a st. split.
  - exact (proj1 (proj2 (proj2 (disabled_means_already_absent st Home a))) eq_refl).
  - exact (proj2 (proj2 (proj2 (disabled_means_already_absent st Away a))) eq_refl).
Defined.

End AbsenceDynamics.

Section RosterSearch.
Import JS MatchPredictionModal.

Lemma startsWith_spec s p : startsWith s p = true <-> exists post, s = p ++ post.
Proof.
  revert s. induction p as [|c p IH]; intros s.
  - destruct s; simpl; split; eauto.
  - destruct s as [|d s]; simpl.
    + split; [discriminate | intros [post H]; discriminate H].
    + rewrite andb_true_iff, N.eqb_eq, IH. split.
      * intros [-> [post ->]]. now exists post.
      * intros [post H]. injection H as -> ->. eauto.
Qed.

Lemma includes_spec s sub :
  includes s sub = true <-> exists pre post, s = pre ++ sub ++ post.
Proof.
  induction s as [|d s IH].
  - change (includes [] sub) with (startsWith [] sub || false).
    rewrite orb_false_r, startsWith_spec. split.
    + intros [post H]. now exists [], post.
    + intros (pre & post & H). destruct pre; [now exists post|discriminate H].
  - change (includes (d :: s) sub) with (startsWith (d :: s) sub || includes s sub).
    rewrite orb_true_iff, startsWith_spec, IH. split.
    + intros [[post H] | (pre & post & H)].
      * now exists [], post.
      * exists (d :: pre), post. now rewrite H.
    + intros (pre & post & H). destruct pre as [|e pre]; simpl in H.
      * left. now exists post.
      * right. injection H as _ H. now exists pre, post.
Qed.

Lemma includes_empty s : includes s [] = true.
Proof. apply includes_spec. now exists [], s. Qed.

Lemma includes_trans a b c :
  includes a b = true -> includes b c = true -> includes a c = true.
Proof.
  rewrite !includes_spec. intros (p1 & q1 & ->) (p2 & q2 & ->).
  exists (p1 ++ p2), (q2 ++ q1). now rewrite <- !app_assoc.
Qed.

Lemma filter_weaker_sublist {A} (f g : A -> bool) (l : list A) :
  (forall x, f x = true -> g x = true) -> sublist (List.filter f l) (List.filter g l).
Proof.
  intros Himp. induction l as [|x l IH]; simpl; [constructor|].
  destruct (f x) eqn:Fx.
  - rewrite (Himp _ Fx). now constructor.
  - destruct (g x); [now constructor | exact IH].
Qed.

Lemma filter_sublist {A} (f : A -> bool) (l : list A) : sublist (List.filter f l) l.
Proof.
  induction l as [|x l IH]; simpl; [constructor|]. destruct (f x); now constructor.
Qed.

Lemma filter_all_true {A} (f : A -> bool) (l : list A) :
  (forall x, f x = true) -> List.filter f l = l.
Proof.
  intros H. induction l as [|x l IH]; simpl; [reflexivity|]. now rewrite H, IH.
Qed.

Lemma toLowerCase_ascii_app a b : toLowerCase (a ++ b) = toLowerCase a ++ toLowerCase b.
Proof. unfold toLowerCase. apply map_app. Qed.

(** X8.  The roster search, for the case mapping [toLowerCase] of the
    engine, of which only [toLowerCase("") = ""] is used.  The results are
    the players of the roster whose lowered name includes the lowered
    query, in the order of the roster.  The empty query keeps the whole
    roster, a player whose name is the query up to case is found, and since
    an add empties the search text of its side the search lists the whole
    roster again after it. *)
Theorem roster_search_results
  (toLowerCase : jsstring -> jsstring) (roster : list Player) (query : jsstring) :
  toLowerCase [] = [] ->
  (forall p, p ∈ playerSearchResults toLowerCase roster query <->
             p ∈ roster /\
             includes (toLowerCase (full_name p)) (toLowerCase query) = true) /\
  sublist (playerSearchResults toLowerCase roster query) roster /\
  playerSearchResults toLowerCase roster [] = roster /\
  (forall p, p ∈ roster -> toLowerCase (full_name p) = toLowerCase query ->
             p ∈ playerSearchResults toLowerCase roster query) /\
  (forall st p,
     homePlayerSearchResults toLowerCase roster (addHomeMissingPlayer p st) = roster /\
     awayPlayerSearchResults toLowerCase roster (addAwayMissingPlayer p st) = roster).
Proof.
  intros Hnil.
  assert (E : playerSearchResults toLowerCase roster [] = roster).
  { apply filter_all_true. intros x. rewrite Hnil. apply includes_empty. }
  assert (M : forall p, p ∈ playerSearchResults toLowerCase roster query <->
              p ∈ roster /\
              includes (toLowerCase (full_name p)) (toLowerCase query) = true).
  { intros p. unfold playerSearchResults. rewrite !list_elem_of_In. apply filter_In. }
  split; [exact M|]. split; [apply filter_sublist|]. split; [exact E|]. split.
  - intros p Hp Hq. apply M. split; [exact Hp|]. rewrite Hq.
    apply includes_spec. exists [], []. now rewrite app_nil_r.
  - intros st p. split; [unfold homePlayerSearchResults | unfold awayPlayerSearchResults];
      unfold addHomeMissingPlayer, addAwayMissingPlayer; simpl; exact E.
Qed.

Lemma roster_search_results_witness :
  let a := mkPlayer 7 (js "LeBron James") in
  let b := mkPlayer 9 (js "Austin Reaves") in
  a ∈ playerSearchResults JS.toLowerCase [a; b] (js "LEBRON JAMES") /\
  playerSearchResults JS.toLowerCase [a; b] [] = [a; b].
Proof.
  intros a b.
  pose proof (roster_search_results JS.toLowerCase [a; b] (js "LEBRON JAMES") eq_refl)
    as (_ & _ & E & F & _).
  split; [|exact (proj1 (proj2 (proj2 (roster_search_results JS.toLowerCase [a; b] []
                                         eq_refl))))].
  apply F; [apply list_elem_of_here | reflexivity].
Defined.

(** X9.  Typing more never brings players back: when the lowered form of
    a query includes that of another, its results are among the results of
    the other, in the same order.  For a case mapping that is the map of
    [JS.toLowerCase] on ASCII text, as that of the language is, an ASCII
    query extended by ASCII text at either end keeps a part of what the
    shorter query kept, whatever the names of the roster are. *)
Theorem roster_search_narrows
  (toLowerCase : jsstring -> jsstring) (roster : list Player) (query longer : jsstring) :
  (includes (toLowerCase longer) (toLowerCase query) = true ->
   sublist (playerSearchResults toLowerCase roster longer)
           (playerSearchResults toLowerCase roster query)) /\
  ((forall s, isAscii s -> toLowerCase s = JS.toLowerCase s) ->
   forall before after, isAscii before -> isAscii query -> isAscii after ->
     sublist (playerSearchResults toLowerCase roster (before ++ query ++ after))
             (playerSearchResults toLowerCase roster query)).
Proof.
  assert (G : forall q2, includes (toLowerCase q2) (toLowerCase query) = true ->
            sublist (playerSearchResults toLowerCase roster q2)
                    (playerSearchResults toLowerCase roster query)).
  { intros q2 H. apply filter_weaker_sublist. intros x Hx.
    exact (includes_trans _ _ _ Hx H). }
  split; [apply G|].
  intros Hascii before after Hb Hq Ha. apply G.
  rewrite (Hascii query Hq).
  rewrite (Hascii (before ++ query ++ after))
    by (unfold isAscii in *; repeat apply Forall_app_2; assumption).
  apply includes_spec.
  exists (JS.toLowerCase before), (JS.toLowerCase after).
  now rewrite !toLowerCase_ascii_app.
Qed.

Lemma roster_search_narrows_witness :
  let a := mkPlayer 7 (js "LeBron James") in
  let b := mkPlayer 9 (js "Austin Reaves") in
  sublist (playerSearchResults JS.toLowerCase [a; b] (js "Rea"))
          (playerSearchResults JS.toLowerCase [a; b] (js "e")) /\
  sublist (playerSearchResults JS.toLowerCase [a; b] (js "R" ++ js "e" ++ js "a"))
          (playerSearchResults JS.toLowerCase [a; b] (js "e")).
Proof.
  intros a b. split.
  - apply (proj1 (roster_search_narrows JS.toLowerCase [a; b] (js "e") (js "Rea"))).
    vm_compute. reflexivity.
  - apply (proj2 (roster_search_narrows JS.toLowerCase [a; b] (js "e") [])).
    + intros s _. reflexivity.
    + repeat constructor.
    + repeat constructor.
    + repeat constructor.
Defined.

End RosterSearch.

Section FailedLogos.
Import JS MatchPredictionModal.

Lemma failedLogos_step st a key :
  key ∈ failedLogos st -> key ∈ failedLogos (step st a).
Proof.
  intros H.
  destruct a as [[|] p | [|] i | [|] q | [|] b | t]; simpl;
    unfold addHomeMissingPlayer, addAwayMissingPlayer; try exact H.
  - now destruct (findById (homeMissingPlayers st) p).
  - now destruct (findById (awayMissingPlayers st) p).
  - set_solver.
Qed.

Lemma failedLogos_run actions st key :
  key ∈ failedLogos st -> key ∈ failedLogos (run st actions).
Proof.
  revert st. induction actions as [|a actions IH]; intros st H; simpl; [exact H|].
  apply IH. now apply failedLogos_step.
Qed.

Lemma logoKey_sides g g' : logoKey Home g <> logoKey Away g'.
Proof. discriminate. Qed.

(** X10.  A logo that failed to load is not tried again: once the error
    handler has run for the logo of a side, that logo is not rendered after
    any further sequence of actions.  The failure of one side does not hide
    the logo of the other side, and whenever a logo is rendered [getLogo]
    has a URL for it. *)
Theorem failed_logo_stays_hidden
  (side : Side) (g : TodayGame) (game : option TodayGame) (st : State)
  (actions : list Action) :
  logoShown side (Some g) (run (handleLogoError (logoKey side g) st) actions) = false /\
  (forall other g', other <> side ->
     logoShown other game (handleLogoError (logoKey side g') st) = logoShown other game st) /\
  (logoShown side game st = true ->
   exists g0 url, game = Some g0 /\
     getLogo (match side with
              | Home => game_homeTeamId g0
              | Away => game_awayTeamId g0
              end) = Some url).
Proof.
  split; [|split].
  - unfold logoShown. rewrite bool_decide_eq_true_2; [apply andb_false_r|].
    apply failedLogos_run. simpl. set_solver.
  - intros other g' Hne. unfold logoShown. destruct game as [g0|]; [|reflexivity].
    f_equal. f_equal. apply bool_decide_ext. simpl.
    rewrite elem_of_union, elem_of_singleton. split; [|tauto].
    intros [H | H]; [exact H|]. exfalso.
    destruct other, side; try congruence; discriminate H.
  - unfold logoShown. destruct game as [g0|]; [|discriminate].
    intros H. apply andb_true_iff in H as [H _]. exists g0. unfold getLogo.
    destruct side; [destruct (game_homeTeamId g0) as [t|] | destruct (game_awayTeamId g0) as [t|]];
      simpl in H; try discriminate H; rewrite H; eauto.
Qed.

Lemma failed_logo_stays_hidden_witness :
  let g := mkTodayGame (js "0022500123") (js "Lakers") (js "Celtics")
                       (Some (js "1610612747")) (Some (js "1610612738")) in
  logoShown Away (Some g) (handleLogoError (logoKey Home g) initial) = true /\
  exists g0 url, Some g = Some g0 /\ getLogo (game_homeTeamId g0) = Some url.
Proof.
  intros g. split.
  - rewrite (proj1 (proj2 (failed_logo_stays_hidden Home g (Some g) initial []))
               Away g ltac:(discriminate)).
    vm_compute. reflexivity.
  - apply (proj2 (proj2 (failed_logo_stays_hidden Home g (Some g) initial []))).
    vm_compute. reflexivity.
Defined.

End FailedLogos.

Section SignedNumbers.
Import JS MatchPredictionModal.
Local Open Scope Q_scope.

Lemma uint_digits d :
  Forall (fun c => between 48 57 c = true) (js (NilEmpty.string_of_uint d)).
Proof. induction d; simpl; constructor; try assumption; reflexivity. Qed.

Lemma ToString_int_nonneg z :
  (0 <= z)%Z ->
  ToString_int z <> [] /\ Forall (fun c => between 48 57 c = true) (ToString_int z).
Proof.
  intros Hz. split; [apply ToString_int_keyField|].
  unfold ToString_int. destruct z as [|p|p]; [| |lia].
  - repeat constructor.
  - simpl. destruct (Pos.to_uint p) eqn:E; try apply (uint_digits (_ u)).
    repeat constructor.
Qed.

Lemma pointBefore_shape m :
  m <> [] -> Forall (fun c => between 48 57 c = true) m ->
  exists c r, pointBefore 1 m = c :: r /\ between 48 57 c = true /\
              Forall unsignedChar (c :: r).
Proof.
  intros Hne Hm. unfold pointBefore.
  set (m' := padStart 2 m).
  assert (Hm' : Forall unsignedChar m').
  { unfold m', padStart. apply Forall_app. split;
      [|eapply Forall_impl; [exact Hm | intros x Hx; now left]].
    apply Forall_forall. intros x Hx. apply list_elem_of_In, repeat_spec in Hx.
    subst x. now left. }
  assert (Hlen : (2 <= length m')%nat).
  { unfold m', padStart. rewrite length_app, repeat_length. lia. }
  assert (Hall : Forall unsignedChar
                   (firstn (length m' - 1) m' ++ js "." ++ skipn (length m' - 1) m')).
  { apply Forall_app. split; [now apply Forall_take|].
    apply Forall_app. split; [repeat constructor; now right | now apply Forall_drop]. }
  destruct m' as [|c r] eqn:Em; [simpl in Hlen; lia|].
  simpl length in *. destruct (S (length r) - 1)%nat as [|k] eqn:Ek; [lia|].
  simpl firstn in *. exists c. eexists. split; [reflexivity|]. split; [|exact Hall].
  unfold m', padStart in Em. destruct m as [|d m0]; [congruence|].
  destruct (2 - length (d :: m0))%nat as [|j]; simpl in Em; injection Em as <- _.
  - now apply Forall_inv in Hm.
  - reflexivity.
Qed.

Lemma Qabs_opp_eq q : Qabs (- q) = Qabs q.
Proof. destruct q as [n d]. unfold Qabs, Qopp. simpl. now rewrite Z.abs_opp. Qed.

Lemma Qeq_bool_opp_zero q : Qeq_bool (- q) 0 = Qeq_bool q 0.
Proof.
  destruct q as [n d]. unfold Qeq_bool, Qopp. simpl.
  rewrite !Z.mul_1_r. now destruct n.
Qed.

Lemma toFixed_int_nonneg f q : (0 <= toFixed_int f q)%Z.
Proof.
  unfold toFixed_int. change 0%Z with (Qfloor 0). apply Qfloor_resp_le.
  assert (0 <= 10 ^ Z.of_nat f) by (apply Qpower_0_le; discriminate).
  pose proof (Qabs_nonneg q).
  assert (0 <= Qabs q * 10 ^ Z.of_nat f) by now apply Qmult_le_0_compat.
  lra.
Qed.

Lemma toFixed_int_opp f q : toFixed_int f (- q) = toFixed_int f q.
Proof. unfold toFixed_int. now rewrite Qabs_opp_eq. Qed.

(** The digits of [x.toFixed(1)] without the sign. *)
Lemma toFixed1_body q :
  exists c r,
    pointBefore 1 (ToString_int (toFixed_int 1 q)) = c :: r /\
    between 48 57 c = true /\ Forall unsignedChar (c :: r).
Proof.
  destruct (ToString_int_nonneg _ (toFixed_int_nonneg 1 q)) as [Hne Hd].
  now apply pointBefore_shape.
Qed.

Lemma toFixed1_Fin q :
  toFixed 1 (Fin q) = None \/
  toFixed 1 (Fin q) =
  Some ((if Qlt_bool q 0 then js "-" else []) ++
        pointBefore 1 (ToString_int (toFixed_int 1 q))).
Proof. unfold toFixed. destruct (Qle_bool (10 ^ 21) (Qabs q)); [now left | now right]. Qed.

Lemma unsignedChar_no_sign t :
  Forall unsignedChar t -> (45%N ∉ t) /\ (43%N ∉ t).
Proof.
  intros H. split; intros Hin; rewrite Forall_forall in H; apply H in Hin;
    destruct Hin as [Hd | Hd]; discriminate Hd.
Qed.

(** X11.  The margin is shown without its sign: the text is "+" followed
    by digits, never a minus sign, it is the same for a margin and its
    opposite, and it is "+0.0" when the margin is absent, [NaN] or 0. *)
Theorem margin_text_is_unsigned (predicted_margin : option number) (q : Q) :
  marginText (Some (Fin (- q))) = marginText (Some (Fin q)) /\
  (forall t, marginText predicted_margin = Some t ->
     exists r, t = 43%N :: r /\ (45%N ∉ r) /\ (43%N ∉ r)) /\
  (marginText None = Some (js "+0.0") /\
   marginText (Some NaN) = Some (js "+0.0") /\
   marginText (Some zero) = Some (js "+0.0")).
Proof.
  split; [|split].
  - unfold marginText, or0, truthy. rewrite Qeq_bool_opp_zero.
    destruct (Qeq_bool q 0); simpl negb; cbv iota; [reflexivity|].
    unfold Math_abs. now rewrite Qabs_opp_eq.
  - intros t. unfold marginText.
    pose proof (or0_not_NaN predicted_margin) as Hn.
    destruct (or0 predicted_margin) as [|s|p]; [congruence| |].
    + simpl. intros [= <-]. eexists. split; [reflexivity|].
      split; vm_compute; intros H; repeat (apply elem_of_cons in H as [H | H];
        [discriminate H|]); now apply elem_of_nil in H.
    + unfold Math_abs. destruct (toFixed1_Fin (Qabs p)) as [-> | ->]; [discriminate|].
      assert (Hs : Qlt_bool (Qabs p) 0 = false) by (apply Qlt_bool_false, Qabs_nonneg).
      rewrite Hs. rewrite app_nil_l.
      destruct (toFixed1_body (Qabs p)) as (c & r & -> & _ & Hall).
      intros [= <-]. eexists. split; [reflexivity|]. now apply unsignedChar_no_sign.
  - repeat split; vm_compute; reflexivity.
Qed.

Lemma margin_text_is_unsigned_witness :
  exists r, js "+7.5" = 43%N :: r /\ (45%N ∉ r) /\ (43%N ∉ r).
Proof.
  apply (proj1 (proj2 (margin_text_is_unsigned (Some (Fin (-7.5))) 0))).
  vm_compute. reflexivity.
Defined.

Lemma toFixed1_head v t :
  toFixed 1 v = Some t ->
  exists c r, t = c :: r /\ c <> 43%N /\ (c = 45%N -> r <> []).
Proof.
  destruct v as [|[|]|p].
  - intros [= <-]. eexists _, _. split; [reflexivity|]. split; discriminate.
  - intros [= <-]. eexists _, _. split; [reflexivity|]. split; discriminate.
  - intros [= <-]. eexists _, _. split; [reflexivity|]. split; discriminate.
  - destruct (toFixed1_Fin p) as [-> | ->]; [discriminate|].
    destruct (toFixed1_body p) as (c & r & -> & Hc & _).
    destruct (Qlt_bool p 0); intros [= <-].
    + eexists _, _. split; [reflexivity|]. split; discriminate.
    + exists c, r. split; [reflexivity|]. split; [|intros ->; discriminate Hc].
      intros ->. discriminate Hc.
Qed.

Lemma plus_prefix_iff v t0 :
  toFixed 1 v = Some t0 ->
  (gtb v zero = true <-> exists r, (if gtb v zero then js "+" else []) ++ t0 = 43%N :: r).
Proof.
  intros H. destruct (toFixed1_head v t0 H) as (c & r & -> & Hc & _).
  destruct (gtb v zero).
  - split; [intros _; eauto | reflexivity].
  - split; [discriminate|]. intros [r' E]. rewrite app_nil_l in E. congruence.
Qed.

(** X12.  A value of the impact analysis carries the sign of the number
    itself, not of its rounding: a positive value reads "+" and its digits,
    its opposite reads "-" and the same digits, and 0 reads "0.0" with no
    sign; so 0.04 reads "+0.0" and -0.04 reads "-0.0".  The text starts
    with "+" exactly when the value has the class of a positive spread. *)
Theorem signed_text_sign (value : number) (q : Q) :
  (0 < q -> Qabs q < 10 ^ 21 ->
   exists digits,
     signedText (Fin q) = Some (43%N :: digits) /\
     signedText (Fin (- q)) = Some (45%N :: digits) /\
     (45%N ∉ digits) /\ (43%N ∉ digits)) /\
  (q == 0 -> signedText (Fin q) = Some (js "0.0")) /\
  (forall t, signedText value = Some t ->
     (spreadClass value = js "text-purple-400" <-> exists r, t = 43%N :: r)) /\
  (signedText (Fin 0.04) = Some (js "+0.0") /\
   signedText (Fin (-0.04)) = Some (js "-0.0")).
Proof.
  assert (Hcls : js "text-amber-400" <> js "text-purple-400") by discriminate.
  split; [|split; [|split]].
  - intros Hpos Hrange.
    assert (R : Qle_bool (10 ^ 21) (Qabs q) = false) by now apply Qle_bool_false.
    unfold signedText, toFixed. rewrite Qabs_opp_eq, R, toFixed_int_opp.
    assert (G1 : gtb (Fin q) zero = true) by now apply Qlt_bool_true.
    assert (G2 : gtb (Fin (- q)) zero = false) by (apply Qlt_bool_false; lra).
    assert (S1 : Qlt_bool q 0 = false) by (apply Qlt_bool_false; lra).
    assert (S2 : Qlt_bool (- q) 0 = true) by (apply Qlt_bool_true; lra).
    rewrite G1, G2, S1, S2, !app_nil_l.
    destruct (toFixed1_body q) as (c & r & -> & _ & Hall).
    exists (c :: r). repeat split; now apply unsignedChar_no_sign.
  - intros Hz. unfold signedText, toFixed.
    assert (R : Qle_bool (10 ^ 21) (Qabs q) = false).
    { apply Qle_bool_false. apply Qle_lt_trans with 0; [|reflexivity].
      apply Qabs_case; intros; lra. }
    assert (G : gtb (Fin q) zero = false) by (apply Qlt_bool_false; lra).
    assert (S : Qlt_bool q 0 = false) by (apply Qlt_bool_false; lra).
    assert (F : toFixed_int 1 q = 0%Z).
    { unfold toFixed_int. rewrite (Qfloor_comp _ (1 # 2)); [reflexivity|].
      assert (A : Qabs q == 0) by (apply Qabs_case; intros; lra).
      rewrite A. reflexivity. }
    rewrite R, G, S, F. reflexivity.
  - intros t. unfold signedText, spreadClass.
    destruct (toFixed 1 value) as [t0|] eqn:E; [|discriminate].
    intros [= <-]. rewrite <- (plus_prefix_iff value t0 E).
    destruct (gtb value zero); split; congruence.
  - split; vm_compute; reflexivity.
Qed.

Lemma signed_text_sign_witness :
  (exists digits,
     signedText (Fin 3.25) = Some (43%N :: digits) /\
     signedText (Fin (- 3.25)) = Some (45%N :: digits) /\
     (45%N ∉ digits) /\ (43%N ∉ digits)) /\
  signedText (Fin (0 # 5)) = Some (js "0.0") /\
  (spreadClass (Fin (-2)) = js "text-purple-400" <-> exists r, js "-2.0" = 43%N :: r).
Proof.
  split; [|split].
  - apply (proj1 (signed_text_sign NaN 3.25)); vm_compute; reflexivity.
  - apply (proj1 (proj2 (signed_text_sign NaN (0 # 5)))). vm_compute. reflexivity.
  - apply (proj1 (proj2 (proj2 (signed_text_sign (Fin (-2)) 0)))). vm_compute. reflexivity.
Defined.

Lemma Qabs_pos_iff q : 0 < Qabs q <-> ~ q == 0.
Proof.
  split.
  - intros H E. rewrite E in H. revert H. apply Qlt_irrefl.
  - intros H. apply Qabs_case; intros Hq.
    + destruct (Qle_lt_or_eq _ _ Hq) as [L | E]; [exact L|]. exfalso. apply H. now symmetry.
    + destruct (Qle_lt_or_eq _ _ Hq) as [L | E]; [lra|]. contradiction.
Qed.

(** X13.  In the impact analysis the "Significant" badge of the fatigue row
    is rendered exactly when its value has the red class, for every value
    but [NaN], where the text is red without a badge.  The "Major" badge of
    the absence row is rendered only with the orange class, and a value
    that is not 0 and at most 2 in absolute value is orange without the
    badge. *)
Theorem impact_badges_and_classes (value : number) :
  (value <> NaN ->
   (fatigueBadgeShown value = true <-> fatigueValueClass value = js "text-red-400")) /\
  (fatigueBadgeShown NaN = false /\ fatigueValueClass NaN = js "text-red-400") /\
  (absencesBadgeShown value = true -> absencesValueClass value = js "text-orange-400") /\
  (forall q, value = Fin q -> ~ q == 0 -> Qabs q <= 2 ->
     absencesBadgeShown value = false /\
     absencesValueClass value = js "text-orange-400").
Proof.
  assert (Hm1 : js "text-muted-foreground" <> js "text-red-400") by discriminate.
  assert (Zero : forall q, Qeq_bool q 0 = true <-> q == 0) by (intros; apply Qeq_bool_iff).
  split; [|split; [|split]].
  - intros Hn. unfold fatigueBadgeShown, fatigueValueClass.
    destruct value as [|s|q]; [congruence| |]; simpl.
    + split; reflexivity.
    + unfold gtb, ltb, zero. destruct (Qeq_bool q 0) eqn:E.
      * apply Zero in E. split; [|congruence]. intros H. apply Qlt_bool_true in H.
        apply Qabs_pos_iff in H. contradiction.
      * split; [reflexivity|]. intros _. apply Qlt_bool_true, Qabs_pos_iff.
        intros H. apply Zero in H. congruence.
  - split; reflexivity.
  - unfold absencesBadgeShown, absencesValueClass.
    destruct value as [|s|q]; simpl; [discriminate|reflexivity|].
    unfold gtb, ltb. intros H. apply Qlt_bool_true in H.
    destruct (Qeq_bool q 0) eqn:E; [|reflexivity].
    apply Zero in E. rewrite E in H. exfalso. revert H. vm_compute. discriminate.
  - intros q -> Hq H2. unfold absencesBadgeShown, absencesValueClass. simpl.
    split.
    + unfold gtb, ltb. now apply Qlt_bool_false.
    + destruct (Qeq_bool q 0) eqn:E; [|reflexivity]. apply Zero in E. contradiction.
Qed.

Lemma impact_badges_and_classes_witness :
  (fatigueBadgeShown (Fin (-1.5)) = true <->
   fatigueValueClass (Fin (-1.5)) = js "text-red-400") /\
  absencesValueClass (Fin 3) = js "text-orange-400" /\
  (absencesBadgeShown (Fin (-2)) = false /\
   absencesValueClass (Fin (-2)) = js "text-orange-400").
Proof.
  split; [|split].
  - apply (proj1 (impact_badges_and_classes (Fin (-1.5)))). discriminate.
  - apply (proj1 (proj2 (proj2 (impact_badges_and_classes (Fin 3))))). reflexivity.
  - apply (proj2 (proj2 (proj2 (impact_badges_and_classes (Fin (-2))))) (-2) eq_refl).
    + vm_compute. discriminate.
    + vm_compute. discriminate.
Defined.

End SignedNumbers.

Section AbsenceCount.
Import JS MatchPredictionModal.

Lemma joinIds_empty l : joinIds l = [] <-> l = [].
Proof.
  split; [|intros ->; reflexivity].
  intros H. assert (H' : joinIds l = joinIds []) by exact H.
  apply joinIds_inj in H'. now destruct l.
Qed.

Lemma ToString_nat_head n : exists c r, ToString_int (Z.of_nat n) = c :: r /\ between 48 57 c = true.
Proof.
  destruct (ToString_int_nonneg (Z.of_nat n) ltac:(lia)) as [Hne Hd].
  destruct (ToString_int (Z.of_nat n)) as [|c r]; [congruence|].
  exists c, r. split; [reflexivity|]. now apply Forall_inv in Hd.
Qed.

(** X14.  In every state reached from the mounted one the number of
    absences shown is the number of distinct absent ids, side by side: no
    player is counted twice.  "Full rosters" is shown exactly when both
    absence lists are empty, which is when both id components of the query
    key are empty. *)
Theorem absence_count_counts_ids (actions : list Action) (homeTeamId awayTeamId : jsstring) :
  let st := run initial actions in
  absenceCount st =
    (size (list_to_set (map id (homeMissingPlayers st)) : gset Z) +
     size (list_to_set (map id (awayMissingPlayers st)) : gset Z))%nat /\
  (absenceImpactText st = js "Full rosters" <->
   homeMissingPlayers st = [] /\ awayMissingPlayers st = []) /\
  (homeMissingPlayers st = [] /\ awayMissingPlayers st = [] <->
   predictionQueryKey homeTeamId awayTeamId st =
   [js "match-prediction"; homeTeamId; awayTeamId; []; []]).
Proof.
  intros st.
  assert (Inv : forall side, NoDup (map id (missingPlayers side st))).
  { apply run_NoDup. intros []; apply NoDup_nil_2. }
  split; [|split].
  - unfold absenceCount.
    rewrite !size_list_to_set, !length_map; [reflexivity| |].
    + apply (Inv Away).
    + apply (Inv Home).
  - unfold absenceImpactText, absenceCount.
    destruct (homeMissingPlayers st) as [|p l], (awayMissingPlayers st) as [|p' l'];
      simpl length; simpl Nat.ltb.
    + split; [now split | reflexivity].
    + destruct (ToString_nat_head (0 + S (length l'))) as (c & r & E & Hc). rewrite E.
      split; [intros [= -> _]; discriminate Hc | intros [_ H]; discriminate H].
    + destruct (ToString_nat_head (S (length l) + 0)) as (c & r & E & Hc). rewrite E.
      split; [intros [= -> _]; discriminate Hc | intros [H _]; discriminate H].
    + destruct (ToString_nat_head (S (length l) + S (length l'))) as (c & r & E & Hc).
      rewrite E.
      split; [intros [= -> _]; discriminate Hc | intros [H _]; discriminate H].
  - unfold predictionQueryKey. split.
    + intros [-> ->]. reflexivity.
    + intros [= H1 H2]. now apply joinIds_empty in H1, H2.
Qed.

Lemma absence_count_counts_ids_witness :
  let st := run initial [Add Home (mkPlayer 7 (js "A")); Add Home (mkPlayer 7 (js "A"))] in
  absenceImpactText st <> js "Full rosters".
Proof.
  intros st H.
  apply (proj1 (proj1 (proj2 (absence_count_counts_ids
           [Add Home (mkPlayer 7 (js "A")); Add Home (mkPlayer 7 (js "A"))] [] [])))) in H.
  destruct H as [H _]. discriminate H.
Defined.

End AbsenceCount.

(** * Further properties of the player details modal *)

Section CalculatorRuns.
Import JS PlayerDetailsModal.

Lemma clickAnalyze_cases player st :
  (clickAnalyze player st = (st, [])) \/
  (gtb (parseFloat (bookmakerLine st)) zero = true /\
   clickAnalyze player st = (setCalculatorOpen true st, [analyzeCalculator player st])).
Proof.
  unfold clickAnalyze, handleAnalyze.
  destruct (analyzeDisabled st); [now left|].
  destruct (gtb (parseFloat (bookmakerLine st)) zero) eqn:G;
    destruct (nonempty (bookmakerLine st)); cbn [andb];
    [right; split; reflexivity | now left ..].
Qed.

(** X15.  The calculator service is only ever asked about a positive
    line: in every sequence of typing, category changes and clicks on
    Analyze, each fetch issued carries a line that compares greater than 0
    (so neither [NaN], 0 nor a negative number), the id of the player, and
    the projection of the category it names.  A click changes neither the
    selected category nor the entered line. *)
Theorem fetches_carry_positive_lines
  (player : PlayerFullPrediction) (actions : list Action) (st : State) :
  (forall f, f ∈ snd (run player actions) ->
     gtb (fetch_line f) zero = true /\
     fetch_player_id f = player_id player /\
     fetch_projection f = getProjectionValue player (fetch_stat f)) /\
  (selectedStat (fst (clickAnalyze player st)) = selectedStat st /\
   bookmakerLine (fst (clickAnalyze player st)) = bookmakerLine st).
Proof.
  split.
  - unfold run.
    assert (G : forall s,
              (forall f, f ∈ snd s ->
                 gtb (fetch_line f) zero = true /\
                 fetch_player_id f = player_id player /\
                 fetch_projection f = getProjectionValue player (fetch_stat f)) ->
              forall f, f ∈ snd (fold_left (step player) actions s) ->
                 gtb (fetch_line f) zero = true /\
                 fetch_player_id f = player_id player /\
                 fetch_projection f = getProjectionValue player (fetch_stat f)).
    { induction actions as [|a actions IH]; intros s Hs; simpl; [exact Hs|].
      apply IH. destruct a as [text | value |]; simpl; try exact Hs.
      intros f Hf. apply elem_of_app in Hf as [Hf | Hf]; [now apply Hs|].
      destruct (clickAnalyze_cases player (fst s)) as [E | [Hpos E]];
        rewrite E in Hf; simpl in Hf.
      - now apply elem_of_nil in Hf.
      - apply list_elem_of_singleton in Hf. subst f. simpl. auto. }
    apply G. simpl. intros f Hf. now apply elem_of_nil in Hf.
  - destruct (clickAnalyze_cases player st) as [E | [_ E]]; rewrite E; split; reflexivity.
Qed.

Lemma fetches_carry_positive_lines_witness :
  let p := mkPlayerFullPrediction 23 (js "A") (js "LAL") ∅ (Some (Fin 30)) in
  let f := mkCalculatorFetch 23 (Some (Fin 30)) (Fin 22.5) PRA in
  gtb (fetch_line f) zero = true /\
  fetch_player_id f = player_id p /\
  fetch_projection f = getProjectionValue p (fetch_stat f).
Proof.
  intros p f.
  apply (proj1 (fetches_carry_positive_lines p
           [TypeLine (js "-3"); ClickAnalyze; SelectStat PRA; TypeLine (js "22.5");
            ClickAnalyze] initial)).
  vm_compute. apply list_elem_of_here.
Defined.

(** X16.  While the result panel is open, the last fetch issued was for
    the category that is selected: a category change closes the panel and
    only a successful Analyze opens it again.  Typing a new line, unlike a
    category change, leaves the panel as it is. *)
Theorem open_panel_is_for_selected_stat
  (player : PlayerFullPrediction) (actions : list Action) (st : State) (text : jsstring) :
  (calculatorOpen (fst (run player actions)) = true ->
   exists f, last (snd (run player actions)) = Some f /\
             fetch_stat f = selectedStat (fst (run player actions))) /\
  calculatorOpen (setBookmakerLine text st) = calculatorOpen st.
Proof.
  split; [|reflexivity]. unfold run.
  assert (G : forall s,
            (calculatorOpen (fst s) = true ->
             exists f, last (snd s) = Some f /\ fetch_stat f = selectedStat (fst s)) ->
            calculatorOpen (fst (fold_left (step player) actions s)) = true ->
            exists f, last (snd (fold_left (step player) actions s)) = Some f /\
                      fetch_stat f = selectedStat (fst (fold_left (step player) actions s))).
  { induction actions as [|a actions IH]; intros s Hs; simpl; [exact Hs|].
    apply IH. destruct a as [t | value |]; simpl.
    - exact Hs.
    - discriminate.
    - destruct (clickAnalyze_cases player (fst s)) as [E | [_ E]]; rewrite E; simpl.
      + now rewrite app_nil_r.
      + intros _. exists (analyzeCalculator player (fst s)).
        split; [apply last_snoc | reflexivity]. }
  apply G. discriminate.
Qed.

Lemma open_panel_is_for_selected_stat_witness :
  let p := mkPlayerFullPrediction 23 (js "A") (js "LAL") ∅ (Some (Fin 30)) in
  let actions := [TypeLine (js "22.5"); ClickAnalyze; SelectStat REB; ClickAnalyze;
                  TypeLine (js "9")] in
  exists f, last (snd (run p actions)) = Some f /\ fetch_stat f = REB.
Proof.
  intros p actions.
  apply (proj1 (open_panel_is_for_selected_stat p actions initial [])).
  vm_compute. reflexivity.
Defined.

End CalculatorRuns.

Section DetailsDisplay.
Import JS PlayerDetailsModal.

Lemma split_nonempty sep s : split sep s <> [].
Proof.
  destruct s as [|c r]; simpl; [discriminate|].
  destruct (c =? sep)%N; [discriminate|]. destruct (split sep r); discriminate.
Qed.

Lemma split_app_sep sep a b :
  split sep (a ++ sep :: b) = split sep a ++ split sep b.
Proof.
  induction a as [|c a IH]; simpl.
  - now rewrite N.eqb_refl.
  - destruct (c =? sep)%N; [now rewrite IH|]. rewrite IH.
    pose proof (split_nonempty sep a) as Hne.
    destruct (split sep a); [congruence | reflexivity].
Qed.

Lemma split_no_sep sep w : sep ∉ w -> split sep w = [w].
Proof.
  induction w as [|c w IH]; [reflexivity|]. rewrite not_elem_of_cons. intros [Hc Hw].
  simpl. destruct (N.eqb_spec c sep) as [E | E]; [congruence|]. now rewrite IH.
Qed.

Lemma initials_no_space name : 32%N ∉ initials name.
Proof.
  unfold initials. induction name as [|c r IH]; simpl; [apply not_elem_of_nil|].
  destruct (N.eqb_spec c 32) as [E | E]; simpl; [exact IH|].
  pose proof (split_nonempty 32 r) as Hne.
  destruct (split 32 r) as [|x xs]; [congruence|]. simpl in *.
  rewrite not_elem_of_cons. split; [congruence|].
  destruct x; simpl in IH; [exact IH|]. rewrite not_elem_of_cons in IH. tauto.
Qed.

(** X17.  The initials of the avatar fallback are built word by word: the
    initials of two parts joined by a space are the initials of the first
    followed by those of the second, a part without a space gives its first
    code unit, and an empty part (a leading, trailing or doubled space)
    gives nothing.  The initials never hold a space and are empty for the
    empty name. *)
Theorem initials_word_by_word (first rest word : jsstring) :
  initials (first ++ 32%N :: rest) = initials first ++ initials rest /\
  (32%N ∉ word -> initials word = firstUnit word) /\
  (32%N ∉ initials first) /\
  initials [] = [].
Proof.
  split; [|split; [|split]].
  - unfold initials. now rewrite split_app_sep, flat_map_app.
  - intros H. unfold initials. rewrite (split_no_sep _ _ H). simpl. apply app_nil_r.
  - apply initials_no_space.
  - reflexivity.
Qed.

Lemma initials_word_by_word_witness :
  initials (js "LeBron" ++ 32%N :: js " James ") = js "L" ++ js "J" /\
  initials (js "Giannis") = js "G".
Proof.
  split.
  - rewrite (proj1 (initials_word_by_word (js "LeBron") (js " James ") [])).
    reflexivity.
  - apply (proj1 (proj2 (initials_word_by_word [] [] (js "Giannis")))).
    vm_compute. intros H.
    repeat (apply elem_of_cons in H as [H | H]; [discriminate H|]).
    now apply elem_of_nil in H.
Defined.

Lemma toFixed1_not_dash v t : toFixed 1 v = Some t -> t <> [] /\ t <> js "-".
Proof.
  intros H. destruct (toFixed1_head v t H) as (c & r & -> & _ & Hr).
  split; [discriminate|]. intros [= -> ->]. now apply Hr.
Qed.

(** X18.  A box of averages shows "-" only for a value that is missing:
    every number that is there is shown as a number, 0 as "0.0".  The value
    of a split is missing exactly when the history has no splits, the side
    has none, or the side has no entry for the selected category. *)
Theorem missing_value_dash
  (splits : option Splits) (selectedStat : StatCategory) (homeOrAway : HomeOrAway)
  (value : option number) :
  (valueText value = Some (js "-") <-> value = None) /\
  valueText (Some zero) = Some (js "0.0") /\
  (getSelectedStatValue splits selectedStat homeOrAway = None <->
   splits = None \/
   exists sp, splits = Some sp /\
     match (match homeOrAway with
            | AtHome => splits_home sp
            | AtAway => splits_away sp
            end) with
     | None => True
     | Some splitData => splitData !! statKey selectedStat = None
     end).
Proof.
  split; [|split].
  - split; [|intros ->; reflexivity].
    destruct value as [v|]; [|reflexivity]. unfold valueText.
    destruct (toFixed 1 v) as [t|] eqn:E; [|discriminate].
    destruct (toFixed1_not_dash v t E) as [Hne Hd].
    destruct t as [|c r]; [congruence|]. cbn [nonempty].
    intros H. exfalso. apply Hd. injection H as -> ->. reflexivity.
  - reflexivity.
  - unfold getSelectedStatValue. destruct splits as [sp|]; [|split; auto].
    split.
    + intros H. right. exists sp. split; [reflexivity|].
      destruct homeOrAway; [destruct (splits_home sp) | destruct (splits_away sp)]; auto.
    + intros [H | (sp' & [= <-] & H)]; [discriminate|].
      destruct homeOrAway; [destruct (splits_home sp) | destruct (splits_away sp)]; auto.
Qed.

Lemma missing_value_dash_witness :
  let sp := mkSplits (Some {[ js "PTS" := zero ]}) None in
  getSelectedStatValue (Some sp) REB AtHome = None /\
  getSelectedStatValue (Some sp) PTS AtAway = None /\
  valueText (getSelectedStatValue (Some sp) PTS AtHome) <> Some (js "-").
Proof.
  intros sp. split; [|split].
  - apply (proj2 (proj2 (proj2 (missing_value_dash (Some sp) REB AtHome None)))).
    right. exists sp. split; reflexivity.
  - apply (proj2 (proj2 (proj2 (missing_value_dash (Some sp) PTS AtAway None)))).
    right. exists sp. split; [reflexivity | exact I].
  - intros H.
    apply (proj1 (proj1 (missing_value_dash None PTS AtHome
                           (getSelectedStatValue (Some sp) PTS AtHome)))) in H.
    revert H. vm_compute. discriminate.
Defined.

(** The numbers that [round64] and [parseFloat] return are multiples of
    [2^-1074], so two of them that differ are at least that far apart. *)
Lemma round64_grid x r :
  round64 x = Fin r -> exists m : Z, (r == inject_Z m * 2 ^ (-1074))%Q.
Proof.
  intros H. destruct (round64_spec x) as [(r' & E & Er & _) | [E _]];
    rewrite E in H; [|discriminate].
  injection H as <-. destruct (nearest_grid x) as [m Hm]. exists m.
  now rewrite Er.
Qed.

Lemma parseFloat_grid s l :
  parseFloat s = Fin l -> exists m : Z, (l == inject_Z m * 2 ^ (-1074))%Q.
Proof.
  unfold parseFloat. destruct (readSign (trimStart s)) as [neg u].
  destruct (startsWith u (js "Infinity")); [discriminate|].
  unfold parseDecimal. destruct (spanDigits u) as [ip r1].
  destruct (match r1 with
            | [] => ([], r1)
            | c :: r => if (c =? 46)%N then spanDigits r else ([], r1)
            end) as [fp r2].
  destruct (ip ++ fp); [discriminate|]. apply round64_grid.
Qed.

Lemma isBinary64_grid p :
  isBinary64 p = true -> exists m : Z, (p == inject_Z m * 2 ^ (-1074))%Q.
Proof.
  unfold isBinary64. intros H. apply andb_true_iff in H as [H _].
  apply Qeq_bool_eq in H. destruct (nearest_grid p) as [m Hm]. exists m.
  now rewrite <- H.
Qed.

Lemma grid_gap p l :
  (exists m : Z, (p == inject_Z m * 2 ^ (-1074))%Q) ->
  (exists m : Z, (l == inject_Z m * 2 ^ (-1074))%Q) ->
  (l < p)%Q -> (2 ^ (-1074) <= p - l)%Q.
Proof.
  intros [mp Hp] [ml Hl] Hlt.
  pose proof (pow2_pos (-1074)) as U. set (u := (2 ^ (-1074))%Q) in *.
  assert (Hm : (ml < mp)%Z).
  { destruct (Z_lt_ge_dec ml mp) as [L | G]; [exact L|]. exfalso.
    apply Z.ge_le in G. rewrite Zle_Qle in G.
    assert (inject_Z mp * u <= inject_Z ml * u)%Q
      by (apply Qmult_le_compat_r; [exact G | lra]).
    lra. }
  assert (H1 : (inject_Z ml + 1 <= inject_Z mp)%Q).
  { change 1%Q with (inject_Z 1). rewrite <- inject_Z_plus, <- Zle_Qle. lia. }
  assert ((inject_Z ml + 1) * u <= inject_Z mp * u)%Q
    by (apply Qmult_le_compat_r; [exact H1 | lra]).
  lra.
Qed.

(** X19.  The difference to the entered line is rendered exactly when the
    line is not empty.  Its text starts with "+" exactly when it has the
    emerald class, that is, for a projection that is a binary64 and a line
    that parses to a number, when the projection is greater than the line:
    the rounding of the difference never hides which of the two is greater.
    With a line of 22.5 and a projection of 24 it reads "+1.5"; with a line
    of 24.3 and the projection 24.3 it reads "0.0" in red. *)
Theorem difference_display (player : PlayerFullPrediction) (st : State) :
  (differenceShown st = false <-> bookmakerLine st = []) /\
  (forall t, differenceText player st = Some t ->
     (differenceClass player st = js "text-emerald-300" <-> exists r, t = 43%N :: r)) /\
  (forall p l, getProjectionValue player (selectedStat st) = Some (Fin p) ->
               isBinary64 p = true ->
               parseFloat (bookmakerLine st) = Fin l ->
     (differenceClass player st = js "text-emerald-300" <-> (l < p)%Q)) /\
  (getProjectionValue player (selectedStat st) = Some (literal 24.3) ->
   bookmakerLine st = js "24.3" ->
   differenceText player st = Some (js "0.0") /\
   differenceClass player st = js "text-red-300") /\
  (getProjectionValue player (selectedStat st) = Some (Fin 24) ->
   bookmakerLine st = js "22.5" ->
   differenceText player st = Some (js "+1.5")).
Proof.
  assert (Hcls : js "text-red-300" <> js "text-emerald-300") by discriminate.
  split; [|split; [|split; [|split]]].
  - unfold differenceShown. destruct (bookmakerLine st); simpl; split; congruence.
  - intros t. unfold differenceText, differenceClass.
    destruct (toFixed 1 (difference player st)) as [t0|] eqn:E; [|discriminate].
    intros [= <-]. rewrite <- (plus_prefix_iff _ t0 E).
    destruct (gtb (difference player st) zero); split; congruence.
  - intros p l Hp Hb Hl. unfold differenceClass, difference. rewrite Hp, Hl.
    cbn [ToNumber sub]. unfold gtb.
    destruct (Qlt_le_dec l p) as [L | G].
    + pose proof (grid_gap p l (isBinary64_grid _ Hb) (parseFloat_grid _ _ Hl) L) as Gap.
      pose proof (pow2_pos (-1074)) as U.
      assert (P : ltb zero (round64 (p - l)) = true).
      { apply (round64_gt 0 (2 ^ (-1074))); try apply nearest_least;
          set (u := (2 ^ (-1074))%Q) in *; lra. }
      rewrite P. split; [intros _; exact L | reflexivity].
    + assert (P : ltb zero (round64 (p - l)) = false) by (apply round64_nonpos; lra).
      rewrite P. split; [congruence | intros H; lra].
  - intros Hp Hl. unfold differenceText, differenceClass, difference. rewrite Hp, Hl.
    vm_compute. split; reflexivity.
  - intros Hp Hl. unfold differenceText, difference. rewrite Hp, Hl.
    vm_compute. reflexivity.
Qed.

Lemma difference_display_witness :
  let p := mkPlayerFullPrediction 23 (js "A") (js "LAL") {[ js "PTS" := Fin 24 ]}
             (Some (literal 24.3)) in
  differenceText p (mkState PTS (js "22.5") false) = Some (js "+1.5") /\
  (differenceClass p (mkState PTS (js "30") false) = js "text-emerald-300" <-> (30 < 24)%Q) /\
  (differenceText p (mkState PRA (js "24.3") false) = Some (js "0.0") /\
   differenceClass p (mkState PRA (js "24.3") false) = js "text-red-300").
Proof.
  intros p. split; [|split].
  - apply (proj2 (proj2 (proj2 (proj2 (difference_display p (mkState PTS (js "22.5") false))))));
      vm_compute; reflexivity.
  - apply (proj1 (proj2 (proj2 (difference_display p (mkState PTS (js "30") false))))
             24%Q 30%Q); vm_compute; reflexivity.
  - apply (proj1 (proj2 (proj2 (proj2 (difference_display p
                                         (mkState PRA (js "24.3") false))))));
      reflexivity.
Defined.

End DetailsDisplay.
